(** * A versioned schema registry: [internal/schema/registry.go]

    The development embeds the Go package [schema] shallowly:

    - the registry ([SchemaRegistry]) is a record of two finite maps and two
      scalars; every method is a function from the registry (and the arguments
      of the call) to the new registry and the value the method returns.  Each
      method takes the registry's lock for its whole body, so a method is one
      atomic step and a history of the registry is a list of calls;
    - the clock ([time.Now()]) is an argument of the methods that read it;
    - [encoding/json], [fmt]'s rendering of a [float64] and the order in which
      [range] visits a map belong to Go, not to the repository: they are the
      fields of the class [GoLib], and every theorem holds for every instance;
      the order of a [range] is a function of the map in an instance, so a
      theorem about all instances speaks of every order a run can take;
    - a failed type assertion [x.(T)] panics: the validation path runs in the
      [outcome] monad, whose second constructor is the panic. *)

From Stdlib Require Import ZArith PrimFloat Floats.
From Stdlib Require Import Strings.Byte.
From stdpp Require Import gmap strings list fin_maps pretty sorting.

#[local] Set Warnings "-register-all".

(** ** Go's [int] *)

(** [int] is 64 bits wide on the platforms the program is built for; an
    addition that leaves the range wraps around. *)
Module GoInt.

Definition min_int : Z := (- 2 ^ 63)%Z.
Definition max_int : Z := (2 ^ 63 - 1)%Z.

Definition wrap (z : Z) : Z := ((z + 2 ^ 63) mod 2 ^ 64 - 2 ^ 63)%Z.

Definition add (a b : Z) : Z := wrap (a + b).

Definition in_range (z : Z) : Prop := (min_int ≤ z ≤ max_int)%Z.

End GoInt.

(** ** Values, errors and panics *)

(** [[]byte], the representation of [json.RawMessage]. *)
Definition bytes : Type := list byte.

#[global] Instance byte_eq_decision : EqDecision byte := byte_eq_dec.

(** [time.Time], as an instant on some fixed scale. *)
Definition Time : Type := Z.

(** Go's [error], by its message; [nil] is [None] where a method returns a
    lone [error]. *)
Definition error : Type := string.

(** A method returning [(T, error)]. *)
Inductive result (A : Type) : Type :=
  | Ok (a : A)
  | Err (e : error).
Arguments Ok {A} a.
Arguments Err {A} e.

(** A computation that may panic on a failed type assertion. *)
Inductive outcome (A : Type) : Type :=
  | Return (a : A)
  | Panic.
Arguments Return {A} a.
Arguments Panic {A}.

Definition obind {A B : Type} (m : outcome A) (k : A → outcome B) : outcome B :=
  match m with
  | Return a => k a
  | Panic => Panic
  end.

Notation "x ←! m ; k" := (obind m (λ x, k))
  (at level 20, m at level 100, k at level 200, right associativity,
   format "x  ←!  m ;  '/' k").

(** The dynamic values an [interface{}] holds on the validation path:
    the six shapes [json.Unmarshal] stores into an [interface{}], and the two
    integer types that [validateField]'s type switch also names. *)
Inductive value : Type :=
  | VNil
  | VBool (b : bool)
  | VFloat64 (f : float)
  | VString (s : string)
  | VArray (l : list value)
  | VObject (m : gmap string value)
  | VInt (n : Z)
  | VInt64 (n : Z).

(** ** What the package takes from Go *)

Class GoLib : Type := {
  (** [json.Unmarshal(b, &v)] with [v] an [interface{}] *)
  json_unmarshal_any : bytes → result value;
  (** [json.Unmarshal(b, &m)] with [m] a [map[string]interface{}] *)
  json_unmarshal_map : bytes → result (gmap string value);
  (** [fmt]'s [%v] of a [float64] *)
  fmt_float64 : float → string;
  (** the order in which one [range] statement visits a map: every entry
      once, in an order the language leaves open *)
  map_range : gmap string value → list (string * value);
  map_range_perm : ∀ m, map_range m ≡ₚ map_to_list m
}.

(** ** The data model *)

Definition SchemaType : Type := string.
Definition SchemaTypeJSON : SchemaType := "json".
Definition SchemaTypeProtobuf : SchemaType := "protobuf".
Definition SchemaTypeAvro : SchemaType := "avro".

Definition CompatibilityMode : Type := string.
Definition CompatibilityNone : CompatibilityMode := "NONE".
Definition CompatibilityBackward : CompatibilityMode := "BACKWARD".
Definition CompatibilityForward : CompatibilityMode := "FORWARD".
Definition CompatibilityFull : CompatibilityMode := "FULL".

Record SchemaInfo : Type := {
  ID : Z;
  Name : string;
  Version : Z;
  Type_ : SchemaType;
  Schema : bytes;
  Compatibility : CompatibilityMode;
  Description : string;
  CreatedAt : Time;
  UpdatedAt : Time
}.

Record SchemaVersion : Type := {
  VVersion : Z;
  VSchema : bytes;
  VCreatedAt : Time
}.

Record ValidationResult : Type := {
  Valid : bool;
  Errors : list string;
  Message : string
}.

Record SchemaRegistry : Type := {
  schemas : gmap string SchemaInfo;
  versions : gmap string (list SchemaVersion);
  nextID : Z;
  defaultCompat : CompatibilityMode
}.

Record RegisterOptions : Type := {
  OptDescription : string;
  OptCompatibility : CompatibilityMode
}.

Definition NewSchemaRegistry : SchemaRegistry :=
  {| schemas := ∅;
     versions := ∅;
     nextID := 1;
     defaultCompat := CompatibilityBackward |}.

(** [r.versions[name]]: a missing key reads as the nil slice. *)
Definition history (r : SchemaRegistry) (name : string) : list SchemaVersion :=
  default [] (versions r !! name).

(** The [SchemaVersion] literal built from a current schema, as [Register],
    [GetVersion] and [GetVersions] each write it. *)
Definition snapshot (s : SchemaInfo) : SchemaVersion :=
  {| VVersion := Version s; VSchema := Schema s; VCreatedAt := CreatedAt s |}.

Definition not_found (name : string) : error :=
  "스키마를 찾을 수 없습니다: " +:+ name.

(** ** The registry store *)

Section Store.
Context {go : GoLib}.

(** The guard that opens [Register]. *)
Definition check_definition (schemaType : SchemaType) (schema : bytes)
  : option error :=
  if decide (schemaType = SchemaTypeJSON) then
    match json_unmarshal_any schema with
    | Err err => Some ("잘못된 JSON 스키마: " +:+ err)
    | Ok _ => None
    end
  else None.

Definition Register (name : string) (schemaType : SchemaType) (schema : bytes)
    (opts : option RegisterOptions) (now : Time) (r : SchemaRegistry)
  : SchemaRegistry * option error :=
  match check_definition schemaType schema with
  | Some err => (r, Some err)
  | None =>
    let '(compatibility, description) :=
      match opts with
      | Some o =>
          (if decide (OptCompatibility o ≠ EmptyString)
           then OptCompatibility o else defaultCompat r,
           OptDescription o)
      | None => (defaultCompat r, EmptyString)
      end in
    (* an existing schema: bump the version, append it to the history *)
    let '(version, versions') :=
      match schemas r !! name with
      | Some existing =>
          (GoInt.add (Version existing) 1,
           <[name := history r name ++ [snapshot existing]]> (versions r))
      | None => (1%Z, versions r)
      end in
    ({| schemas :=
          <[name := {| ID := nextID r;
                       Name := name;
                       Version := version;
                       Type_ := schemaType;
                       Schema := schema;
                       Compatibility := compatibility;
                       Description := description;
                       CreatedAt := now;
                       UpdatedAt := now |}]> (schemas r);
        versions := versions';
        nextID := GoInt.add (nextID r) 1;
        defaultCompat := defaultCompat r |},
     None)
  end.

Definition Get (name : string) (r : SchemaRegistry) : result SchemaInfo :=
  match schemas r !! name with
  | Some schema => Ok schema
  | None => Err (not_found name)
  end.

Definition GetVersion (name : string) (version : Z) (r : SchemaRegistry)
  : result SchemaVersion :=
  match schemas r !! name with
  | None => Err (not_found name)
  | Some current =>
      if decide (Version current = version) then Ok (snapshot current)
      else
        match List.find (λ v, bool_decide (VVersion v = version))
                        (history r name) with
        | Some v => Ok v
        | None =>
            Err ("버전을 찾을 수 없습니다: " +:+ name +:+ " v" +:+ pretty version)
        end
  end.

Definition GetVersions (name : string) (r : SchemaRegistry)
  : result (list SchemaVersion) :=
  match schemas r !! name with
  | None => Err (not_found name)
  | Some current => Ok (([] ++ history r name) ++ [snapshot current])
  end.

Definition Delete (name : string) (r : SchemaRegistry)
  : SchemaRegistry * option error :=
  match schemas r !! name with
  | None => (r, Some (not_found name))
  | Some _ =>
      ({| schemas := delete name (schemas r);
          versions := delete name (versions r);
          nextID := nextID r;
          defaultCompat := defaultCompat r |},
       None)
  end.

Definition SetCompatibility (name : string) (mode : CompatibilityMode)
    (now : Time) (r : SchemaRegistry) : SchemaRegistry * option error :=
  match schemas r !! name with
  | None => (r, Some "스키마를 찾을 수 없습니다")
  | Some schema =>
      ({| schemas :=
            <[name := {| ID := ID schema;
                         Name := Name schema;
                         Version := Version schema;
                         Type_ := Type_ schema;
                         Schema := Schema schema;
                         Compatibility := mode;
                         Description := Description schema;
                         CreatedAt := CreatedAt schema;
                         UpdatedAt := now |}]> (schemas r);
          versions := versions r;
          nextID := nextID r;
          defaultCompat := defaultCompat r |},
       None)
  end.

End Store.

(** ** The validation engine *)

Section Engine.
Context {go : GoLib}.

(** The loop over [enum] in [validateField]: [e.(string)] panics on an
    entry that is not a string; the loop stops at the first match. *)
Fixpoint enum_loop (enum : list value) (strVal : string) : outcome bool :=
  match enum with
  | [] => Return false
  | e :: rest =>
      match e with
      | VString s =>
          if decide (s = strVal) then Return true else enum_loop rest strVal
      | _ => Panic
      end
  end.

Definition validateField (name : string) (val : value)
    (propDef : gmap string value) : outcome (option error) :=
  let expectedType :=
    match propDef !! "type" with
    | Some (VString s) => s
    | _ => EmptyString
    end in
  if decide (expectedType = "string") then
    match val with
    | VString strVal =>
        match propDef !! "enum" with
        | Some (VArray enum) =>
            valid ←! enum_loop enum strVal;
            if valid then Return None
            else Return (Some ("필드 '" +:+ name +:+ "'의 값 '" +:+ strVal
                                 +:+ "'는 허용되지 않습니다"))
        | _ => Return None
        end
    | _ => Return (Some ("필드 '" +:+ name +:+ "'는 string 타입이어야 합니다"))
    end
  else if decide (expectedType = "number") then
    match val with
    | VFloat64 v =>
        match propDef !! "minimum" with
        | Some (VFloat64 min) =>
            if PrimFloat.ltb v min
            then Return (Some ("필드 '" +:+ name +:+ "'의 값은 "
                                 +:+ fmt_float64 min +:+ " 이상이어야 합니다"))
            else Return None
        | _ => Return None
        end
    | VInt _ | VInt64 _ => Return None
    | _ => Return (Some ("필드 '" +:+ name +:+ "'는 number 타입이어야 합니다"))
    end
  else if decide (expectedType = "boolean") then
    match val with
    | VBool _ => Return None
    | _ => Return (Some ("필드 '" +:+ name +:+ "'는 boolean 타입이어야 합니다"))
    end
  else if decide (expectedType = "object") then
    match val with
    | VObject _ => Return None
    | _ => Return (Some ("필드 '" +:+ name +:+ "'는 object 타입이어야 합니다"))
    end
  else if decide (expectedType = "array") then
    match val with
    | VArray _ => Return None
    | _ => Return (Some ("필드 '" +:+ name +:+ "'는 array 타입이어야 합니다"))
    end
  else Return None.

(** The loop over [required] in [validateJSON]; [validationErrors] is the
    slice the loop appends to. *)
Fixpoint required_loop (dataMap : gmap string value) (required : list value)
    (validationErrors : list string) : outcome (list string) :=
  match required with
  | [] => Return validationErrors
  | field :: rest =>
      match field with
      | VString fieldName =>
          match dataMap !! fieldName with
          | Some _ => required_loop dataMap rest validationErrors
          | None =>
              required_loop dataMap rest
                (validationErrors ++ ["필수 필드 누락: " +:+ fieldName])
          end
      | _ => Panic
      end
  end.

(** The loop over the payload's entries in [validateJSON]; [entries] is the
    payload in the order [range] visits it. *)
Fixpoint properties_loop (properties : gmap string value)
    (entries : list (string * value)) (validationErrors : list string)
  : outcome (list string) :=
  match entries with
  | [] => Return validationErrors
  | (fieldName, fieldValue) :: rest =>
      match properties !! fieldName with
      | Some propDef =>
          match propDef with
          | VObject propMap =>
              err ←! validateField fieldName fieldValue propMap;
              match err with
              | Some e => properties_loop properties rest (validationErrors ++ [e])
              | None => properties_loop properties rest validationErrors
              end
          | _ => Panic
          end
      | None => properties_loop properties rest validationErrors
      end
  end.

Definition validateJSON (schema : SchemaInfo) (data : bytes)
  : outcome ValidationResult :=
  match json_unmarshal_map data with
  | Err err =>
      Return {| Valid := false;
                Errors := ["JSON 파싱 실패: " +:+ err];
                Message := "잘못된 JSON 형식" |}
  | Ok dataMap =>
      match json_unmarshal_map (Schema schema) with
      | Err err =>
          Return {| Valid := false;
                    Errors := ["스키마 파싱 실패: " +:+ err];
                    Message := "잘못된 스키마 형식" |}
      | Ok schemaMap =>
          errs1 ←! match schemaMap !! "required" with
                   | Some (VArray required) => required_loop dataMap required []
                   | _ => Return []
                   end;
          errs2 ←! match schemaMap !! "properties" with
                   | Some (VObject properties) =>
                       properties_loop properties (map_range dataMap) errs1
                   | _ => Return errs1
                   end;
          if decide (0 < length errs2) then
            Return {| Valid := false;
                      Errors := errs2;
                      Message := pretty (Z.of_nat (length errs2))
                                   +:+ "개의 검증 오류" |}
          else
            Return {| Valid := true; Errors := []; Message := "검증 성공" |}
      end
  end.

Definition Validate (schemaName : string) (data : bytes) (r : SchemaRegistry)
  : outcome ValidationResult :=
  match Get schemaName r with
  | Err err =>
      Return {| Valid := false; Errors := [err]; Message := "스키마 조회 실패" |}
  | Ok schema =>
      if decide (Type_ schema = SchemaTypeJSON) then validateJSON schema data
      else if decide (Type_ schema = SchemaTypeProtobuf) then
        Return {| Valid := false;
                  Errors := ["Protobuf 검증은 아직 지원하지 않습니다"];
                  Message := "미지원 타입" |}
      else if decide (Type_ schema = SchemaTypeAvro) then
        Return {| Valid := false;
                  Errors := ["Avro 검증은 아직 지원하지 않습니다"];
                  Message := "미지원 타입" |}
      else
        Return {| Valid := false;
                  Errors := ["알 수 없는 스키마 타입: " +:+ Type_ schema];
                  Message := "알 수 없는 타입" |}
  end.

End Engine.

(** ** Histories of the registry *)

(** The calls that change the registry.  The reads ([Get], [GetVersion],
    [GetVersions], [Validate]) leave it as it is and are applied to the
    registry a history ends in. *)
Inductive op : Type :=
  | OpRegister (name : string) (schemaType : SchemaType) (schema : bytes)
               (opts : option RegisterOptions) (now : Time)
  | OpDelete (name : string)
  | OpSetCompatibility (name : string) (mode : CompatibilityMode) (now : Time).

Section Histories.
Context {go : GoLib}.

Definition step (o : op) (r : SchemaRegistry) : SchemaRegistry * option error :=
  match o with
  | OpRegister name schemaType schema opts now =>
      Register name schemaType schema opts now r
  | OpDelete name => Delete name r
  | OpSetCompatibility name mode now => SetCompatibility name mode now r
  end.

Fixpoint run (ops : list op) (r : SchemaRegistry) : SchemaRegistry :=
  match ops with
  | [] => r
  | o :: rest => run rest (step o r).1
  end.

(** The id a call hands out: the [ID] of the schema a successful
    [Register] leaves under its name. *)
Definition issued_by (o : op) (r : SchemaRegistry) : option Z :=
  match o with
  | OpRegister name _ _ _ _ =>
      match (step o r).2 with
      | None => ID <$> schemas (step o r).1 !! name
      | Some _ => None
      end
  | _ => None
  end.

(** The ids handed out along a history, in the order of the calls. *)
Fixpoint issued (ops : list op) (r : SchemaRegistry) : list Z :=
  match ops with
  | [] => []
  | o :: rest => option_list (issued_by o r) ++ issued rest (step o r).1
  end.

(** The number of successful [Register] calls for [name] since the name
    was last deleted, updated by one call that returned [err]. *)
Definition live_after (name : string) (o : op) (err : option error) (n : nat)
  : nat :=
  match o, err with
  | OpRegister nm _ _ _ _, None => if decide (nm = name) then S n else n
  | OpDelete nm, None => if decide (nm = name) then 0 else n
  | _, _ => n
  end.

Fixpoint live_registrations (name : string) (ops : list op)
    (r : SchemaRegistry) (n : nat) : nat :=
  match ops with
  | [] => n
  | o :: rest =>
      live_registrations name rest (step o r).1
        (live_after name o (step o r).2 n)
  end.

End Histories.

(** ** The validation algorithm in the words of the specification *)

(** These definitions follow section 4.2 of the specification, not the code;
    the refinement theorem below compares them with [validateJSON].  The
    specification words the messages in English; the texts here are the ones
    the program prints. *)

Definition is_string (v : value) : bool :=
  match v with VString _ => true | _ => false end.

Definition is_boolean (v : value) : bool :=
  match v with VBool _ => true | _ => false end.

Definition is_object (v : value) : bool :=
  match v with VObject _ => true | _ => false end.

Definition is_array (v : value) : bool :=
  match v with VArray _ => true | _ => false end.

Definition msg_missing (name : string) : string :=
  "필수 필드 누락: " +:+ name.

Definition msg_type (name type : string) : string :=
  "필드 '" +:+ name +:+ "'는 " +:+ type +:+ " 타입이어야 합니다".

Definition msg_not_allowed (name v : string) : string :=
  "필드 '" +:+ name +:+ "'의 값 '" +:+ v +:+ "'는 허용되지 않습니다".

Definition msg_minimum (name minimum : string) : string :=
  "필드 '" +:+ name +:+ "'의 값은 " +:+ minimum +:+ " 이상이어야 합니다".

Definition msg_count (n : nat) : string :=
  pretty (Z.of_nat n) +:+ "개의 검증 오류".

Definition msg_succeeded : string := "검증 성공".

Definition as_string (v : value) : option string :=
  match v with VString s => Some s | _ => None end.

(** Step 3: the names listed under [required]. *)
Definition spec_required (schemaMap : gmap string value) : list string :=
  match schemaMap !! "required" with
  | Some (VArray required) => omap as_string required
  | _ => []
  end.

Definition spec_missing (dataMap schemaMap : gmap string value) : list string :=
  msg_missing <$> filter (λ name, name ∉ dom dataMap) (spec_required schemaMap).

(** Step 4: the declared type and the check it asks for. *)
Inductive declared : Type :=
  | TString | TNumber | TBoolean | TObject | TArray | TUnchecked.

Definition spec_declared (propDef : gmap string value) : declared :=
  match propDef !! "type" with
  | Some (VString t) =>
      if decide (t = "string") then TString
      else if decide (t = "number") then TNumber
      else if decide (t = "boolean") then TBoolean
      else if decide (t = "object") then TObject
      else if decide (t = "array") then TArray
      else TUnchecked
  | _ => TUnchecked
  end.

(** Membership in a declared [enum], by exact comparison of the strings. *)
Definition spec_allowed (enum : list value) (s : string) : bool :=
  existsb (λ e, match e with
                | VString s' => bool_decide (s' = s)
                | _ => false
                end) enum.

(** Numbers.  The specification has one kind of number and accepts any
    numeric representation; an [interface{}] has three, [float64], [int] and
    [int64], and [as_number] reads each of them as the number it stands
    for. *)
Inductive number : Type :=
  | NumFloat (f : float)
  | NumInt (n : Z).

Definition as_number (v : value) : option number :=
  match v with
  | VFloat64 f => Some (NumFloat f)
  | VInt n | VInt64 n => Some (NumInt n)
  | _ => None
  end.

(** The order of an integer and the number a [float64] stands for, compared
    exactly; there is none when the float is not a number. *)
Definition compare_Z_float (n : Z) (f : float) : option comparison :=
  match Prim2SF f with
  | S754_nan => None
  | S754_zero _ => Some (n ?= 0)%Z
  | S754_infinity negative => Some (if negative then Gt else Lt)
  | S754_finite negative m e =>
      let mantissa := if negative then Z.neg m else Z.pos m in
      Some (if (0 <=? e)%Z
            then (n ?= mantissa * 2 ^ e)%Z
            else (n * 2 ^ (- e) ?= mantissa)%Z)
  end.

(** [a ≤ b] on numbers; on two floats it is [<=] of [float64]. *)
Definition number_le (a b : number) : bool :=
  match a, b with
  | NumFloat x, NumFloat y => PrimFloat.leb x y
  | NumInt m, NumInt n => (m <=? n)%Z
  | NumInt n, NumFloat f =>
      match compare_Z_float n f with
      | Some Lt | Some Eq => true
      | _ => false
      end
  | NumFloat f, NumInt n =>
      match compare_Z_float n f with
      | Some Gt | Some Eq => true
      | _ => false
      end
  end.

(** [value ≥ minimum]. *)
Definition spec_at_least (v minimum : number) : bool := number_le minimum v.

(** The minimum as the message shows it. *)
Definition fmt_number {go : GoLib} (x : number) : string :=
  match x with
  | NumFloat f => fmt_float64 f
  | NumInt n => pretty n
  end.

Definition spec_field {go : GoLib} (name : string) (v : value)
    (propDef : gmap string value) : option string :=
  match spec_declared propDef with
  | TString =>
      match v with
      | VString s =>
          match propDef !! "enum" with
          | Some (VArray enum) =>
              if spec_allowed enum s then None
              else Some (msg_not_allowed name s)
          | _ => None
          end
      | _ => Some (msg_type name "string")
      end
  | TNumber =>
      match as_number v with
      | Some x =>
          match propDef !! "minimum" ≫= as_number with
          | Some minimum =>
              if spec_at_least x minimum then None
              else Some (msg_minimum name (fmt_number minimum))
          | None => None
          end
      | None => Some (msg_type name "number")
      end
  | TBoolean => if is_boolean v then None else Some (msg_type name "boolean")
  | TObject => if is_object v then None else Some (msg_type name "object")
  | TArray => if is_array v then None else Some (msg_type name "array")
  | TUnchecked => None
  end.

(** The properties mapping, when the schema declares one. *)
Definition spec_properties (schemaMap : gmap string value) : gmap string value :=
  match schemaMap !! "properties" with
  | Some (VObject properties) => properties
  | _ => ∅
  end.

(** The check of one payload entry: only a key that is also a key of the
    properties mapping is checked. *)
Definition spec_entry {go : GoLib} (properties : gmap string value)
    (entry : string * value) : option string :=
  match properties !! entry.1 with
  | Some (VObject propDef) => spec_field entry.1 entry.2 propDef
  | _ => None
  end.

Definition spec_violations {go : GoLib} (dataMap schemaMap : gmap string value)
  : list string :=
  omap (spec_entry (spec_properties schemaMap)) (map_to_list dataMap).

(** What [json.Unmarshal] stores for a number: a [float64] that is a number;
    it never stores an [int] or an [int64], and it rejects a literal that is
    out of the range of [float64]. *)
Definition json_scalar (v : value) : bool :=
  match v with
  | VInt _ | VInt64 _ => false
  | VFloat64 f => negb (PrimFloat.is_nan f)
  | _ => true
  end.

(** The values of a decoded payload are of that kind. *)
Definition json_payload (dataMap : gmap string value) : bool :=
  forallb (λ entry, json_scalar entry.2) (map_to_list dataMap).

(** The [minimum] of a property definition is of that kind. *)
Definition json_minimum (propDef : value) : bool :=
  match propDef with
  | VObject propMap =>
      match propMap !! "minimum" with
      | Some minimum => json_scalar minimum
      | None => true
      end
  | _ => true
  end.

Definition json_minimums (schemaMap : gmap string value) : bool :=
  forallb (λ entry, json_minimum entry.2)
          (map_to_list (spec_properties schemaMap)).

(** Step 5. *)
Definition spec_result (errors : list string) : ValidationResult :=
  {| Valid := bool_decide (length errors = 0);
     Errors := errors;
     Message := if bool_decide (length errors = 0)
                then msg_succeeded else msg_count (length errors) |}.

(** The shape of a parsed schema under which no type assertion of the
    validation path can fail. *)
Definition all_strings (l : list value) : bool := forallb is_string l.

Definition property_well_shaped (propDef : value) : bool :=
  match propDef with
  | VObject propMap =>
      match propMap !! "enum" with
      | Some (VArray enum) => all_strings enum
      | _ => true
      end
  | _ => false
  end.

Definition well_shaped (schemaMap : gmap string value) : bool :=
  match schemaMap !! "required" with
  | Some (VArray required) => all_strings required
  | _ => true
  end
  &&
  match schemaMap !! "properties" with
  | Some (VObject properties) =>
      forallb (λ kv, property_well_shaped kv.2) (map_to_list properties)
  | _ => true
  end.

(** ** A stand-in for Go's library on a handful of documents *)

(** The examples need an instance of [GoLib].  [Sample.lib] decodes the
    documents of [Sample.table] to the values written next to them, reports a
    syntax error for every other input, and visits a map in the order of
    [map_to_list]. *)
Module Sample.

(** Documents are written with ['] where JSON has a double quote. *)
Fixpoint requote (s : string) : string :=
  match s with
  | EmptyString => EmptyString
  | String c rest =>
      String (if Ascii.eqb c (Ascii.ascii_of_nat 39)
              then Ascii.ascii_of_nat 34 else c)
             (requote rest)
  end.

Definition doc (s : string) : bytes := String.list_byte_of_string (requote s).

Definition obj (l : list (string * value)) : value := VObject (list_to_map l).
Definition strs (l : list string) : value := VArray (VString <$> l).

(** [OrderEventSchema], without its white space. *)
Definition order_schema : bytes :=
  doc ("{'$schema':'http://json-schema.org/draft-07/schema#','type':'object',"
    +:+ "'required':['order_id','customer_id','amount','status','created_at'],"
    +:+ "'properties':{'order_id':{'type':'string'},"
    +:+ "'customer_id':{'type':'string'},"
    +:+ "'amount':{'type':'number','minimum':0},"
    +:+ "'status':{'type':'string','enum':"
    +:+ "['created','paid','shipped','delivered','cancelled']},"
    +:+ "'created_at':{'type':'string','format':'date-time'}}}").

Definition order_schema_value : value :=
  obj [("$schema", VString "http://json-schema.org/draft-07/schema#");
       ("type", VString "object");
       ("required",
        strs ["order_id"; "customer_id"; "amount"; "status"; "created_at"]);
       ("properties",
        obj [("order_id", obj [("type", VString "string")]);
             ("customer_id", obj [("type", VString "string")]);
             ("amount", obj [("type", VString "number");
                             ("minimum", VFloat64 0%float)]);
             ("status",
              obj [("type", VString "string");
                   ("enum", strs ["created"; "paid"; "shipped";
                                  "delivered"; "cancelled"])]);
             ("created_at", obj [("type", VString "string");
                                 ("format", VString "date-time")])])].

Definition good_order : bytes :=
  doc ("{'order_id':'ORD-1','customer_id':'C-1','amount':100,"
    +:+ "'status':'created','created_at':'2024-01-01T00:00:00Z'}").

Definition good_order_value : value :=
  obj [("order_id", VString "ORD-1");
       ("customer_id", VString "C-1");
       ("amount", VFloat64 100%float);
       ("status", VString "created");
       ("created_at", VString "2024-01-01T00:00:00Z")].

Definition bad_order : bytes :=
  doc "{'order_id':'ORD-2','amount':-5,'status':'bogus'}".

Definition bad_order_value : value :=
  obj [("order_id", VString "ORD-2");
       ("amount", VFloat64 (-5)%float);
       ("status", VString "bogus")].

(** A schema whose [required] array lists a number. *)
Definition odd_schema : bytes := doc "{'required':[1]}".

Definition odd_schema_value : value :=
  obj [("required", VArray [VFloat64 1%float])].

(** A schema whose property [status] is a string, not an object. *)
Definition flat_schema : bytes := doc "{'properties':{'status':'string'}}".

Definition flat_schema_value : value :=
  obj [("properties", obj [("status", VString "string")])].

(** A schema whose [enum] array lists a number. *)
Definition odd_enum_schema : bytes :=
  doc "{'properties':{'status':{'type':'string','enum':[1]}}}".

Definition odd_enum_schema_value : value :=
  obj [("properties",
        obj [("status", obj [("type", VString "string");
                             ("enum", VArray [VFloat64 1%float])])])].

Definition empty_object : bytes := doc "{}".

(** Not a JSON document: the object is never closed. *)
Definition truncated : bytes := doc "{'order_id':".

(** The mapping a decoded object holds. *)
Definition fields (v : value) : gmap string value :=
  match v with VObject m => m | _ => ∅ end.

(** A current schema of kind JSON with the given definition. *)
Definition json_schema (definition : bytes) : SchemaInfo :=
  {| ID := 1%Z; Name := "OrderEvent"; Version := 1%Z;
     Type_ := SchemaTypeJSON; Schema := definition;
     Compatibility := CompatibilityBackward; Description := EmptyString;
     CreatedAt := 10%Z; UpdatedAt := 10%Z |}.

Definition table : list (bytes * value) :=
  [(order_schema, order_schema_value);
   (good_order, good_order_value);
   (bad_order, bad_order_value);
   (odd_schema, odd_schema_value);
   (flat_schema, flat_schema_value);
   (odd_enum_schema, odd_enum_schema_value);
   (empty_object, obj []);
   (doc "null", VNil);
   (doc "[]", VArray [])].

Definition decode (b : bytes) : option value :=
  snd <$> List.find (λ kv, bool_decide (kv.1 = b)) table.

Definition syntax_error : error := "unexpected end of JSON input".
Definition type_error : error :=
  "json: cannot unmarshal into Go value of type map[string]interface {}".

#[export] Instance lib : GoLib :=
  {| json_unmarshal_any b :=
       match decode b with
       | Some v => Ok v
       | None => Err syntax_error
       end;
     json_unmarshal_map b :=
       match decode b with
       | Some (VObject m) => Ok m
       | Some VNil => Ok ∅
       | Some _ => Err type_error
       | None => Err syntax_error
       end;
     fmt_float64 f :=
       if PrimFloat.eqb f 0%float then "0" else "float64";
     map_range := map_to_list;
     map_range_perm m := reflexivity (map_to_list m) |}.

(** A registry that holds [OrderEvent] with compatibility [FULL], after a
    first version whose definition was the empty object. *)
Definition orders : list op :=
  [OpRegister "OrderEvent" SchemaTypeJSON empty_object None 10%Z;
   OpRegister "OrderEvent" SchemaTypeJSON order_schema
     (Some {| OptDescription := "orders";
              OptCompatibility := CompatibilityFull |}) 20%Z].

End Sample.

(** ** The rest of the registry *)

(** [GetByID], [List] and [GetStats] walk the map of current schemas with
    [range], and [List] calls [sort.Slice].  As with [GoLib], the order of
    the walk and the sorting routine are Go's: [GoRuntime] holds them with
    what Go promises of them.  [sort.Slice] permutes the slice and, for a
    [less] that is a strict weak order, leaves no element before one it is
    less than; it is not stable. *)
Definition strict_weak_order {A : Type} (less : A → A → bool) : Prop :=
  (∀ x, less x x = false)
  ∧ (∀ x y z, less x y = true → less y z = true → less x z = true)
  ∧ (∀ x y z, less x y = false → less y z = false → less x z = false).

Class GoRuntime : Type := {
  range_schemas : gmap string SchemaInfo → list (string * SchemaInfo);
  range_schemas_perm : ∀ m, range_schemas m ≡ₚ map_to_list m;
  sort_slice :
    (SchemaInfo → SchemaInfo → bool) → list SchemaInfo → list SchemaInfo;
  sort_slice_perm : ∀ less l, sort_slice less l ≡ₚ l;
  sort_slice_sorted : ∀ less l,
    strict_weak_order less →
    StronglySorted (λ a b, less b a = false) (sort_slice less l)
}.

(** The value of [GetStats]: a map with the three keys [total_schemas],
    [total_versions] and [by_type]. *)
Record Stats : Type := {
  total_schemas : Z;
  total_versions : Z;
  by_type : gmap string Z
}.

Section Queries.
Context {rt : GoRuntime}.

Definition GetByID (id : Z) (r : SchemaRegistry) : result SchemaInfo :=
  match List.find (λ entry, bool_decide (ID entry.2 = id))
                  (range_schemas (schemas r)) with
  | Some entry => Ok entry.2
  | None => Err ("스키마 ID를 찾을 수 없습니다: " +:+ pretty id)
  end.

Definition List (r : SchemaRegistry) : list SchemaInfo :=
  let result := snd <$> range_schemas (schemas r) in
  sort_slice (λ a b, bool_decide (ID a < ID b)%Z) result.

Definition Count (r : SchemaRegistry) : Z := Z.of_nat (size (schemas r)).

(** One turn of the loop of [GetStats]: [typeCount[schema.Type]++] and
    [totalVersions += len(r.versions[name]) + 1]. *)
Definition stats_visit (r : SchemaRegistry) (acc : gmap string Z * Z)
    (entry : string * SchemaInfo) : gmap string Z * Z :=
  (<[Type_ entry.2 := GoInt.add (default 0%Z (acc.1 !! Type_ entry.2)) 1]> acc.1,
   GoInt.add acc.2 (GoInt.add (Z.of_nat (length (history r entry.1))) 1)).

Definition GetStats (r : SchemaRegistry) : Stats :=
  let acc := foldl (stats_visit r) (∅, 0%Z) (range_schemas (schemas r)) in
  {| total_schemas := Z.of_nat (size (schemas r));
     total_versions := acc.2;
     by_type := acc.1 |}.

End Queries.

(** ** The publish history of the web dashboard: [cmd/schema-web/main.go] *)

Record PublishRecord : Type := {
  PubID : Z;
  PubSchemaName : string;
  PubExchange : string;
  PubRoutingKey : string;
  PubSuccess : bool;
  PubError : string;
  PubTimestamp : Time
}.

(** The package variables [publishHistory] and [publishID], which
    [addPublishRecord] updates under [historyMutex]. *)
Record PublishLog : Type := {
  publishHistory : list PublishRecord;
  publishID : Z
}.

(** As [main] leaves them: an empty slice and the zero counter. *)
Definition NewPublishLog : PublishLog :=
  {| publishHistory := []; publishID := 0 |}.

Definition addPublishRecord (schemaName exchange routingKey : string)
    (success : bool) (errMsg : string) (now : Time) (h : PublishLog)
  : PublishLog * PublishRecord :=
  let publishID' := GoInt.add (publishID h) 1 in
  let record := {| PubID := publishID';
                   PubSchemaName := schemaName;
                   PubExchange := exchange;
                   PubRoutingKey := routingKey;
                   PubSuccess := success;
                   PubError := errMsg;
                   PubTimestamp := now |} in
  let publishHistory' := [record] ++ publishHistory h in
  let publishHistory'' :=
    if decide (100 < length publishHistory')
    then take 100 publishHistory' else publishHistory' in
  ({| publishHistory := publishHistory''; publishID := publishID' |}, record).

Definition getSchemaVersion (name : string) (r : SchemaRegistry) : Z :=
  match Get name r with
  | Err _ => 0%Z
  | Ok s => Version s
  end.

(** The arguments of one call of [addPublishRecord], with the clock. *)
Record PublishCall : Type := {
  CallSchemaName : string;
  CallExchange : string;
  CallRoutingKey : string;
  CallSuccess : bool;
  CallError : string;
  CallNow : Time
}.

Definition publish (c : PublishCall) (h : PublishLog)
  : PublishLog * PublishRecord :=
  addPublishRecord (CallSchemaName c) (CallExchange c) (CallRoutingKey c)
    (CallSuccess c) (CallError c) (CallNow c) h.

Fixpoint publish_all (calls : list PublishCall) (h : PublishLog) : PublishLog :=
  match calls with
  | [] => h
  | c :: rest => publish_all rest (publish c h).1
  end.

(** The records the calls returned, in the order of the calls. *)
Fixpoint published (calls : list PublishCall) (h : PublishLog)
  : list PublishRecord :=
  match calls with
  | [] => []
  | c :: rest => (publish c h).2 :: published rest (publish c h).1
  end.

(** ** The column helper of the interactive shell *)

(** [truncate]: [s[:max-3]] panics when [max-3] is negative or exceeds the
    length; strings are sequences of bytes and [len] counts bytes. *)
Definition truncate (s : string) (max : Z) : outcome string :=
  if decide (Z.of_nat (String.length s) ≤ max)%Z then Return s
  else
    let high := GoInt.wrap (max - 3) in
    if decide (0 ≤ high ≤ Z.of_nat (String.length s))%Z
    then Return (String.substring 0 (Z.to_nat high) s +:+ "...")
    else Panic.

(** ** Statements used by the theorems on the rest of the code *)

(** No call of the history deletes [name]. *)
Definition keeps (name : string) (ops : list op) : Prop :=
  Forall (λ o, o ≠ OpDelete name) ops.

(** The registry is well formed: a current schema carries the name it is
    filed under, and only registered names have a history. *)
Definition store_wf (r : SchemaRegistry) : Prop :=
  (∀ name s, schemas r !! name = Some s → Name s = name)
  ∧ (∀ name, is_Some (versions r !! name) → is_Some (schemas r !! name)).

(** The number of current schemas of a kind, and the number of version
    records over all registered names. *)
Definition count_type (t : SchemaType) (l : list (string * SchemaInfo)) : nat :=
  length (filter (λ entry, Type_ entry.2 = t) l).

Definition count_versions (r : SchemaRegistry)
    (l : list (string * SchemaInfo)) : nat :=
  sum_list_with (λ entry, S (length (history r entry.1))) l.

(** A stand-in for Go's runtime: the walk in the order of [map_to_list], and
    merge sort for [sort.Slice]. *)
Module Demo.

Definition not_after (less : SchemaInfo → SchemaInfo → bool)
  : relation SchemaInfo := λ a b, less b a = false.

#[export] Instance not_after_dec less a b : Decision (not_after less a b).
Proof. unfold not_after. apply _. Defined.

Definition runtime : GoRuntime.
Proof.
  refine {| range_schemas := map_to_list;
            sort_slice less := merge_sort (not_after less) |}.
  - reflexivity.
  - intros less l. apply merge_sort_Permutation.
  - intros less l (Hirr & Htrans & Hneg).
    assert (Transitive (not_after less)) as Htr.
    { intros a b c Hab Hbc. unfold not_after in *. eauto. }
    assert (Total (not_after less)) as Htot.
    { intros a b. unfold not_after.
      destruct (less b a) eqn:Hba; [|by left]. right.
      destruct (less a b) eqn:Hab; [|done].
      pose proof (Htrans a b a Hab Hba) as Haa. by rewrite Hirr in Haa. }
    apply (StronglySorted_merge_sort (not_after less)).
Defined.

(** The same, with the walk in the opposite order. *)
Definition runtime_rev : GoRuntime :=
  {| range_schemas m := reverse (map_to_list m);
     range_schemas_perm m := reverse_Permutation (map_to_list m);
     sort_slice := sort_slice (GoRuntime := runtime);
     sort_slice_perm := sort_slice_perm (GoRuntime := runtime);
     sort_slice_sorted := sort_slice_sorted (GoRuntime := runtime) |}.

Definition call (name : string) (ok : bool) (now : Time) : PublishCall :=
  {| CallSchemaName := name; CallExchange := "schema.events";
     CallRoutingKey := name; CallSuccess := ok;
     CallError := EmptyString; CallNow := now |}.

(** Three registered names, one of them deleted and registered again. *)
Definition three : list op :=
  [OpRegister "OrderEvent" SchemaTypeJSON Sample.empty_object None 10%Z;
   OpRegister "Trace" SchemaTypeProtobuf Sample.truncated None 20%Z;
   OpRegister "OrderEvent" SchemaTypeJSON Sample.order_schema None 30%Z;
   OpRegister "Log" SchemaTypeAvro Sample.truncated None 40%Z;
   OpDelete "Trace";
   OpRegister "Trace" SchemaTypeProtobuf Sample.truncated None 50%Z].

End Demo.

(** ** Statements and invariants used by the theorems *)

(** The claim C5 as it is written, at one re-registration: the schema
    installed by the second call would have the [CreatedAt] of the first. *)
Definition createdAt_kept_by (go : GoLib) (name : string) (ty : SchemaType)
    (schema : bytes) (first second : Time) : Prop :=
  let r := (Register name ty schema None first NewSchemaRegistry).1 in
  let r' := (Register name ty schema None second r).1 in
  CreatedAt <$> schemas r' !! name = CreatedAt <$> schemas r !! name.

(** The claim C4 as it is written, at one re-registration: the schema
    installed by the second call would have the [ID] of the first. *)
Definition id_kept_by (go : GoLib) (name : string) (ty : SchemaType)
    (schema : bytes) (first second : Time) : Prop :=
  let r := (Register name ty schema None first NewSchemaRegistry).1 in
  let r' := (Register name ty schema None second r).1 in
  ID <$> schemas r' !! name = ID <$> schemas r !! name.

(** The versions of [name] when [n] registrations of it are live: none at
    all, or a current schema at version [n] over a history of the versions
    [1 .. n-1] in this order.  The versions are stated through [GoInt.wrap]
    so that the invariant holds of every history. *)
Definition versions_inv (name : string) (r : SchemaRegistry) (n : nat) : Prop :=
  match n with
  | 0 => schemas r !! name = None ∧ versions r !! name = None
  | S k =>
      ∃ s, schemas r !! name = Some s
        ∧ Version s = GoInt.wrap (Z.of_nat n)
        ∧ VVersion <$> history r name = GoInt.wrap <$> seqZ 1 (Z.of_nat k)
  end.

(** The ids of a registry that has handed out [k] ids without overflow: the
    counter stands at [k + 1], the current schemas hold ids between [1] and
    [k], and no two of them hold the same. *)
Definition ids_inv (r : SchemaRegistry) (k : nat) : Prop :=
  nextID r = (1 + Z.of_nat k)%Z
  ∧ (∀ name s, schemas r !! name = Some s → (1 ≤ ID s ≤ Z.of_nat k)%Z)
  ∧ (∀ n1 n2 s1 s2,
       schemas r !! n1 = Some s1 → schemas r !! n2 = Some s2 →
       ID s1 = ID s2 → n1 = n2).

(** * Theorems *)

(** ** Arithmetic of [int] *)

Lemma wrap_in_range (z : Z) : GoInt.in_range z → GoInt.wrap z = z.
Proof.
  unfold GoInt.in_range, GoInt.min_int, GoInt.max_int, GoInt.wrap. intros Hz.
  rewrite Z.mod_small; lia.
Qed.

Lemma wrap_add_l (a b : Z) : GoInt.wrap (GoInt.wrap a + b) = GoInt.wrap (a + b).
Proof.
  unfold GoInt.wrap.
  replace ((a + 2 ^ 63) `mod` 2 ^ 64 - 2 ^ 63 + b + 2 ^ 63)%Z
    with ((a + 2 ^ 63) `mod` 2 ^ 64 + b)%Z by lia.
  rewrite Zplus_mod_idemp_l. do 2 f_equal. lia.
Qed.

Lemma add_succ (z : Z) :
  (0 ≤ z < GoInt.max_int)%Z → GoInt.add z 1 = (z + 1)%Z.
Proof.
  intros Hz. apply wrap_in_range.
  unfold GoInt.in_range, GoInt.min_int, GoInt.max_int in *. lia.
Qed.

(** ** Reads after a write *)

Section Reads.
Context {go : GoLib}.

Lemma Get_Ok name r s : Get name r = Ok s ↔ schemas r !! name = Some s.
Proof. unfold Get. destruct (schemas r !! name); split; congruence. Qed.

Lemma Get_Err name r e :
  Get name r = Err e ↔ schemas r !! name = None ∧ e = not_found name.
Proof.
  unfold Get. destruct (schemas r !! name); split;
    [congruence | intros []; congruence | intros [= <-]; done
    | intros [_ ->]; done].
Qed.

Lemma Register_fails name ty schema opts now r r' err :
  Register name ty schema opts now r = (r', Some err) →
  r' = r ∧ check_definition ty schema = Some err.
Proof.
  unfold Register. destruct (check_definition ty schema).
  - by intros [= <- <-].
  - by destruct opts, (schemas r !! name).
Qed.

Lemma Register_succeeds name ty schema opts now r r' :
  Register name ty schema opts now r = (r', None) →
  check_definition ty schema = None
  ∧ nextID r' = GoInt.add (nextID r) 1
  ∧ defaultCompat r' = defaultCompat r
  ∧ (∀ other, other ≠ name → schemas r' !! other = schemas r !! other)
  ∧ (∀ other, other ≠ name → versions r' !! other = versions r !! other)
  ∧ ∃ s', schemas r' !! name = Some s'
      ∧ ID s' = nextID r
      ∧ Name s' = name
      ∧ Type_ s' = ty
      ∧ Schema s' = schema
      ∧ CreatedAt s' = now
      ∧ UpdatedAt s' = now
      ∧ Version s' = match schemas r !! name with
                     | Some s => GoInt.add (Version s) 1
                     | None => 1%Z
                     end
      ∧ history r' name = match schemas r !! name with
                          | Some s => history r name ++ [snapshot s]
                          | None => history r name
                          end.
Proof.
  unfold Register. destruct (check_definition ty schema); [done|].
  unfold history.
  destruct opts, (schemas r !! name) eqn:Hs; intros [= <-]; cbn;
    (do 3 (split; [done|]); split; [|split]);
    try (intros other Hne; by rewrite lookup_insert_ne);
    (eexists; rewrite lookup_insert_eq; repeat split; cbn;
     by rewrite ?lookup_insert_eq).
Qed.

Lemma Register_compatibility name ty schema opts now r r' :
  Register name ty schema opts now r = (r', None) →
  ∃ s', schemas r' !! name = Some s'
    ∧ Compatibility s'
      = match opts with
        | Some o =>
            if decide (OptCompatibility o ≠ EmptyString)
            then OptCompatibility o else defaultCompat r
        | None => defaultCompat r
        end.
Proof.
  unfold Register. destruct (check_definition ty schema); [done|].
  destruct opts, (schemas r !! name); intros [= <-]; cbn;
    eexists; by rewrite lookup_insert_eq.
Qed.

End Reads.

(** ** Rejected definitions *)

(** C7: a JSON-kind definition that [json.Unmarshal] rejects makes [Register]
    return the error that wraps the decoder's, and the registry it returns is
    the registry it was given: the counter, the history map and the map of
    current schemas are those of before the call. *)
Theorem Register_malformed_definition {go : GoLib} (name : string)
    (schema : bytes) (opts : option RegisterOptions) (now : Time)
    (r : SchemaRegistry) (err : error) :
  json_unmarshal_any schema = Err err →
  Register name SchemaTypeJSON schema opts now r
    = (r, Some ("잘못된 JSON 스키마: " +:+ err))
  ∧ nextID (Register name SchemaTypeJSON schema opts now r).1 = nextID r
  ∧ versions (Register name SchemaTypeJSON schema opts now r).1 = versions r
  ∧ schemas (Register name SchemaTypeJSON schema opts now r).1 = schemas r.
Proof.
  intros Herr.
  assert (Register name SchemaTypeJSON schema opts now r
            = (r, Some ("잘못된 JSON 스키마: " +:+ err))) as ->; [|done].
  unfold Register, check_definition.
  rewrite decide_True by done. by rewrite Herr.
Qed.

Lemma Register_malformed_definition_witness :
  let r := run (go := Sample.lib) Sample.orders NewSchemaRegistry in
  Register (go := Sample.lib) "OrderEvent" SchemaTypeJSON Sample.truncated
      None 30%Z r
    = (r, Some ("잘못된 JSON 스키마: " +:+ Sample.syntax_error))
  ∧ nextID (Register (go := Sample.lib) "OrderEvent" SchemaTypeJSON
              Sample.truncated None 30%Z r).1 = 3%Z
  ∧ versions (Register (go := Sample.lib) "OrderEvent" SchemaTypeJSON
                Sample.truncated None 30%Z r).1 = versions r
  ∧ schemas (Register (go := Sample.lib) "OrderEvent" SchemaTypeJSON
               Sample.truncated None 30%Z r).1 = schemas r.
Proof.
  apply (Register_malformed_definition (go := Sample.lib)).
  vm_compute. reflexivity.
Defined.

(** ** Validation without a validator *)

(** C8: [Validate] returns a result, and does not panic, when there is nothing
    to validate against.  For an unknown name the result is invalid and
    carries one error, the not-found error of [Get]; for a schema of kind
    PROTOBUF or AVRO it is invalid with the one error that the kind is not
    supported yet and the message [미지원 타입] (unsupported type); and a
    schema of any other kind than JSON gives an invalid result with one error
    as well. *)
Theorem Validate_without_validator {go : GoLib} (name : string) (data : bytes)
    (r : SchemaRegistry) :
  (schemas r !! name = None →
     Validate name data r
       = Return {| Valid := false;
                   Errors := [not_found name];
                   Message := "스키마 조회 실패" |})
  ∧ (∀ s, Get name r = Ok s → Type_ s = SchemaTypeProtobuf →
       Validate name data r
         = Return {| Valid := false;
                     Errors := ["Protobuf 검증은 아직 지원하지 않습니다"];
                     Message := "미지원 타입" |})
  ∧ (∀ s, Get name r = Ok s → Type_ s = SchemaTypeAvro →
       Validate name data r
         = Return {| Valid := false;
                     Errors := ["Avro 검증은 아직 지원하지 않습니다"];
                     Message := "미지원 타입" |})
  ∧ (∀ s, Get name r = Ok s → Type_ s ≠ SchemaTypeJSON →
       ∃ e msg, Validate name data r
                  = Return {| Valid := false; Errors := [e]; Message := msg |}).
Proof.
  unfold Validate. repeat split.
  - intros Hnone. unfold Get. by rewrite Hnone.
  - intros s -> Hty. rewrite Hty. done.
  - intros s -> Hty. rewrite Hty. done.
  - intros s -> Hty. rewrite decide_False by done.
    repeat case_decide; eauto.
Qed.

Lemma Validate_without_validator_witness :
  let r := (Register (go := Sample.lib) "Trace" SchemaTypeProtobuf
              Sample.truncated None 40%Z
              (Register (go := Sample.lib) "Log" SchemaTypeAvro
                 Sample.truncated None 30%Z NewSchemaRegistry).1).1 in
  Validate (go := Sample.lib) "UnknownSchema" Sample.empty_object r
    = Return {| Valid := false;
                Errors := [not_found "UnknownSchema"];
                Message := "스키마 조회 실패" |}
  ∧ Validate (go := Sample.lib) "Trace" Sample.empty_object r
      = Return {| Valid := false;
                  Errors := ["Protobuf 검증은 아직 지원하지 않습니다"];
                  Message := "미지원 타입" |}
  ∧ Validate (go := Sample.lib) "Log" Sample.empty_object r
      = Return {| Valid := false;
                  Errors := ["Avro 검증은 아직 지원하지 않습니다"];
                  Message := "미지원 타입" |}.
Proof.
  intros r. split; [|split].
  - apply (Validate_without_validator (go := Sample.lib)). vm_compute. reflexivity.
  - unshelve eapply
      (proj1 (proj2 (Validate_without_validator (go := Sample.lib)
                       "Trace" Sample.empty_object r)) _ _ _);
      [| vm_compute; reflexivity | vm_compute; reflexivity].
  - unshelve eapply
      (proj1 (proj2 (proj2 (Validate_without_validator (go := Sample.lib)
                              "Log" Sample.empty_object r))) _ _ _);
      [| vm_compute; reflexivity | vm_compute; reflexivity].
Defined.

(** ** Deletion *)

(** C9: [Delete] of a registered name succeeds and leaves a registry in which
    the name has neither a current schema nor a history, so that [Get],
    [GetVersions] and [GetVersion] at every version return the not-found
    error; the other names and the counter are as before.  [Delete] of an
    unknown name returns the not-found error and the registry it was given. *)
Theorem Delete_removes_schema_and_history (name : string) (r : SchemaRegistry) :
  (is_Some (schemas r !! name) →
     ∃ r', Delete name r = (r', None)
       ∧ schemas r' !! name = None
       ∧ versions r' !! name = None
       ∧ Get name r' = Err (not_found name)
       ∧ GetVersions name r' = Err (not_found name)
       ∧ (∀ v, GetVersion name v r' = Err (not_found name))
       ∧ (∀ other, other ≠ name →
            schemas r' !! other = schemas r !! other
            ∧ versions r' !! other = versions r !! other)
       ∧ nextID r' = nextID r)
  ∧ (schemas r !! name = None → Delete name r = (r, Some (not_found name))).
Proof.
  split.
  - intros [s Hs]. unfold Delete. rewrite Hs. eexists. split; [done|].
    unfold Get, GetVersions, GetVersion; cbn.
    rewrite !lookup_delete_eq. repeat split; try done.
    + by rewrite lookup_delete_ne.
    + by rewrite lookup_delete_ne.
  - intros Hnone. unfold Delete. by rewrite Hnone.
Qed.

Lemma Delete_removes_schema_and_history_witness :
  let r := run (go := Sample.lib) Sample.orders NewSchemaRegistry in
  (∃ r', Delete "OrderEvent" r = (r', None)
     ∧ schemas r' !! "OrderEvent" = None
     ∧ versions r' !! "OrderEvent" = None
     ∧ Get "OrderEvent" r' = Err (not_found "OrderEvent")
     ∧ GetVersions "OrderEvent" r' = Err (not_found "OrderEvent")
     ∧ (∀ v, GetVersion "OrderEvent" v r' = Err (not_found "OrderEvent"))
     ∧ (∀ other, other ≠ "OrderEvent" →
          schemas r' !! other = schemas r !! other
          ∧ versions r' !! other = versions r !! other)
     ∧ nextID r' = nextID r)
  ∧ Delete "PaymentEvent" r = (r, Some (not_found "PaymentEvent")).
Proof.
  intros r. split.
  - apply (proj1 (Delete_removes_schema_and_history "OrderEvent" r)).
    vm_compute. eauto.
  - apply (proj2 (Delete_removes_schema_and_history "PaymentEvent" r)).
    vm_compute. reflexivity.
Defined.

(** ** What a history preserves *)

Section Preserved.
Context {go : GoLib}.

Lemma step_defaultCompat o r : defaultCompat (step o r).1 = defaultCompat r.
Proof.
  destruct o as [name ty schema opts now | name | name mode now]; cbn.
  - unfold Register.
    by destruct (check_definition ty schema), opts, (schemas r !! name).
  - unfold Delete. by destruct (schemas r !! name).
  - unfold SetCompatibility. by destruct (schemas r !! name).
Qed.

Lemma run_defaultCompat ops r : defaultCompat (run ops r) = defaultCompat r.
Proof.
  revert r. induction ops as [|o ops IH]; intros r; cbn; [done|].
  by rewrite IH, step_defaultCompat.
Qed.

Lemma run_app ops1 ops2 r : run (ops1 ++ ops2) r = run ops2 (run ops1 r).
Proof. revert r. induction ops1 as [|o ops1 IH]; intros r; cbn; auto. Qed.

Lemma issued_app ops1 ops2 r :
  issued (ops1 ++ ops2) r = issued ops1 r ++ issued ops2 (run ops1 r).
Proof.
  revert r. induction ops1 as [|o ops1 IH]; intros r; cbn; [done|].
  by rewrite IH, (assoc_L (++)).
Qed.

End Preserved.

(** ** Compatibility on registration *)

(** C6: [Register] computes the compatibility mode of the schema it installs
    from its options and the registry's default alone.  In a registry reached
    from [NewSchemaRegistry] the default is BACKWARD, so a registration with
    nil options, or with options whose compatibility is the empty string,
    installs BACKWARD whatever mode the name's current schema had; options
    with a non-empty compatibility install that mode. *)
Theorem Register_recomputes_compatibility {go : GoLib} (ops : list op)
    (name : string) (ty : SchemaType) (schema : bytes)
    (opts : option RegisterOptions) (now : Time) (r' : SchemaRegistry) :
  Register name ty schema opts now (run ops NewSchemaRegistry) = (r', None) →
  ∃ s', Get name r' = Ok s'
    ∧ (opts = None → Compatibility s' = CompatibilityBackward)
    ∧ (∀ o, opts = Some o → OptCompatibility o = EmptyString →
         Compatibility s' = CompatibilityBackward)
    ∧ (∀ o, opts = Some o → OptCompatibility o ≠ EmptyString →
         Compatibility s' = OptCompatibility o).
Proof.
  intros (s' & Hs' & Hc)%Register_compatibility.
  rewrite run_defaultCompat in Hc. exists s'. rewrite Get_Ok.
  split; [done|]. rewrite Hc. repeat split.
  - by intros ->.
  - intros o -> Ho. by rewrite decide_False by (by intros ?).
  - intros o -> Ho. by rewrite decide_True.
Qed.

Lemma Register_recomputes_compatibility_witness :
  Compatibility <$>
    schemas (run (go := Sample.lib) Sample.orders NewSchemaRegistry)
      !! "OrderEvent" = Some CompatibilityFull
  ∧ ∃ s', Get "OrderEvent"
            (Register (go := Sample.lib) "OrderEvent" SchemaTypeJSON
               Sample.order_schema None 30%Z
               (run (go := Sample.lib) Sample.orders NewSchemaRegistry)).1
          = Ok s'
    ∧ Compatibility s' = CompatibilityBackward.
Proof.
  split; [vm_compute; reflexivity|].
  destruct (Register_recomputes_compatibility (go := Sample.lib) Sample.orders
              "OrderEvent" SchemaTypeJSON Sample.order_schema None 30%Z _
              ltac:(vm_compute; reflexivity))
    as (s' & Hs' & Hnil & _).
  exists s'. split; [exact Hs' | exact (Hnil eq_refl)].
Defined.

(** ** Timestamps *)

(** C5, counterexample: [OrderEvent] is registered when the clock reads 10
    and again when it reads 20; both calls succeed, and the current schema's
    [CreatedAt] is 10 after the first and 20 after the second. *)
Lemma Register_bump_changes_createdAt :
  let r := (Register (go := Sample.lib) "OrderEvent" SchemaTypeJSON
              Sample.order_schema None 10%Z NewSchemaRegistry).1 in
  let r' := (Register (go := Sample.lib) "OrderEvent" SchemaTypeJSON
               Sample.order_schema None 20%Z r).1 in
  (Register (go := Sample.lib) "OrderEvent" SchemaTypeJSON
     Sample.order_schema None 20%Z r).2 = None
  ∧ CreatedAt <$> schemas r !! "OrderEvent" = Some 10%Z
  ∧ CreatedAt <$> schemas r' !! "OrderEvent" = Some 20%Z
  ∧ ¬ createdAt_kept_by Sample.lib "OrderEvent" SchemaTypeJSON
        Sample.order_schema 10%Z 20%Z.
Proof.
  repeat split; try (vm_compute; reflexivity).
  unfold createdAt_kept_by. vm_compute. intros [=].
Qed.

(** C5, amended: [CreatedAt] is the time of the [Register] call that installed
    the current version.  A successful re-registration at time [now] sets both
    [CreatedAt] and [UpdatedAt] of the new current schema to [now]; the
    previous [CreatedAt] lives on in the record archived for the superseded
    version, the last of the name's history.  [SetCompatibility] at time [now]
    sets [UpdatedAt] to [now] and keeps [CreatedAt] and [Version]. *)
Theorem Register_stamps_createdAt {go : GoLib} (name : string)
    (r : SchemaRegistry) (s : SchemaInfo) :
  Get name r = Ok s →
  (∀ ty schema opts now r',
     Register name ty schema opts now r = (r', None) →
     ∃ s', Get name r' = Ok s'
       ∧ CreatedAt s' = now
       ∧ UpdatedAt s' = now
       ∧ last (history r' name) = Some (snapshot s)
       ∧ VCreatedAt (snapshot s) = CreatedAt s)
  ∧ (∀ mode now,
       ∃ r' s', SetCompatibility name mode now r = (r', None)
         ∧ Get name r' = Ok s'
         ∧ CreatedAt s' = CreatedAt s
         ∧ UpdatedAt s' = now
         ∧ Version s' = Version s
         ∧ Compatibility s' = mode).
Proof.
  intros Hs%Get_Ok. split.
  - intros ty schema opts now r' Hreg.
    apply Register_succeeds in Hreg
      as (_ & _ & _ & _ & _ & s' & Hs' & _ & _ & _ & _ & Hc & Hu & _ & Hh).
    exists s'. rewrite Hs in Hh. rewrite Hh, last_snoc.
    by rewrite Get_Ok.
  - intros mode now. unfold SetCompatibility. rewrite Hs.
    eexists _, _. split; [done|]. unfold Get; cbn.
    by rewrite lookup_insert_eq.
Qed.

Lemma Register_stamps_createdAt_witness :
  let r := (Register (go := Sample.lib) "OrderEvent" SchemaTypeJSON
              Sample.order_schema None 10%Z NewSchemaRegistry).1 in
  ∃ s', Get "OrderEvent"
          (Register (go := Sample.lib) "OrderEvent" SchemaTypeJSON
             Sample.order_schema None 20%Z r).1 = Ok s'
    ∧ CreatedAt s' = 20%Z
    ∧ UpdatedAt s' = 20%Z.
Proof.
  intros r.
  destruct (proj1 (Register_stamps_createdAt (go := Sample.lib) "OrderEvent" r
                     {| ID := 1%Z; Name := "OrderEvent"; Version := 1%Z;
                        Type_ := SchemaTypeJSON;
                        Schema := Sample.order_schema;
                        Compatibility := CompatibilityBackward;
                        Description := EmptyString;
                        CreatedAt := 10%Z; UpdatedAt := 10%Z |}
                     ltac:(vm_compute; reflexivity))
              SchemaTypeJSON Sample.order_schema None 20%Z _
              ltac:(vm_compute; reflexivity))
    as (s' & Hs' & Hc & Hu & _).
  exists s'. repeat split; assumption.
Defined.

(** ** Version numbers *)

Section Versions.
Context {go : GoLib}.

Lemma Delete_succeeds name r r' :
  Delete name r = (r', None) →
  is_Some (schemas r !! name)
  ∧ schemas r' = delete name (schemas r)
  ∧ versions r' = delete name (versions r)
  ∧ nextID r' = nextID r.
Proof.
  unfold Delete. destruct (schemas r !! name); [|done].
  intros [= <-]. eauto.
Qed.

Lemma Delete_fails name r r' err : Delete name r = (r', Some err) → r' = r.
Proof.
  unfold Delete. destruct (schemas r !! name); [done|]. by intros [= <-].
Qed.

Lemma SetCompatibility_succeeds name mode now r r' :
  SetCompatibility name mode now r = (r', None) →
  versions r' = versions r
  ∧ nextID r' = nextID r
  ∧ (∀ other, other ≠ name → schemas r' !! other = schemas r !! other)
  ∧ ∃ s s', schemas r !! name = Some s
      ∧ schemas r' !! name = Some s'
      ∧ ID s' = ID s
      ∧ Version s' = Version s.
Proof.
  unfold SetCompatibility. destruct (schemas r !! name) as [s|] eqn:Hs; [|done].
  intros [= <-]. cbn. repeat split.
  - intros other Hne. by rewrite lookup_insert_ne.
  - eexists _, _. rewrite lookup_insert_eq. done.
Qed.

Lemma SetCompatibility_fails name mode now r r' err :
  SetCompatibility name mode now r = (r', Some err) → r' = r.
Proof.
  unfold SetCompatibility. destruct (schemas r !! name); [done|].
  by intros [= <-].
Qed.

Lemma history_other r r' name :
  versions r' !! name = versions r !! name → history r' name = history r name.
Proof. unfold history. by intros ->. Qed.

Lemma versions_inv_other name r r' n :
  schemas r' !! name = schemas r !! name →
  versions r' !! name = versions r !! name →
  versions_inv name r n → versions_inv name r' n.
Proof.
  intros Hs Hv. destruct n as [|k]; cbn; unfold history; by rewrite Hs, Hv.
Qed.

Lemma versions_inv_step name o r n :
  versions_inv name r n →
  versions_inv name (step o r).1 (live_after name o (step o r).2 n).
Proof.
  intros Hinv.
  destruct o as [nm ty schema opts now | nm | nm mode now]; cbn.
  - destruct (Register nm ty schema opts now r) as [r' [err|]] eqn:Hreg; cbn.
    { apply Register_fails in Hreg as [-> _]. done. }
    apply Register_succeeds in Hreg
      as (_ & _ & _ & Hso & Hvo & s' & Hs' & _ & _ & _ & _ & _ & _ & Hv & Hh).
    case_decide as Hnm; [subst nm |].
    2: { eapply versions_inv_other; [apply Hso | apply Hvo | done]; congruence. }
    destruct n as [|k]; cbn in Hinv.
    + destruct Hinv as [Hnone Hvnone]. rewrite Hnone in Hv, Hh.
      exists s'. split; [done|]. split; [by rewrite Hv|].
      rewrite Hh. unfold history. by rewrite Hvnone.
    + destruct Hinv as (s & Hs & Hver & Hhist). rewrite Hs in Hv, Hh.
      exists s'. split; [done|]. split.
      * rewrite Hv, Hver. unfold GoInt.add. rewrite wrap_add_l. f_equal. lia.
      * rewrite Hh, fmap_app, Hhist. cbn. rewrite Hver.
        replace (Z.of_nat (S k)) with (Z.of_nat k + 1)%Z by lia.
        rewrite seqZ_app by lia. rewrite fmap_app. f_equal.
        change (seqZ (1 + Z.of_nat k) 1) with [(0 + (1 + Z.of_nat k))%Z].
        cbn. do 2 f_equal; lia.
  - destruct (Delete nm r) as [r' [err|]] eqn:Hdel; cbn.
    { by apply Delete_fails in Hdel as ->. }
    apply Delete_succeeds in Hdel as (_ & Hs' & Hv' & _).
    case_decide as Hnm.
    + subst nm. cbn. by rewrite Hs', Hv', !lookup_delete_eq.
    + eapply versions_inv_other; [| |done].
      * by rewrite Hs', lookup_delete_ne.
      * by rewrite Hv', lookup_delete_ne.
  - destruct (SetCompatibility nm mode now r) as [r' [err|]] eqn:Hset; cbn.
    { by apply SetCompatibility_fails in Hset as ->. }
    apply SetCompatibility_succeeds in Hset
      as (Hv' & _ & Hso & s & s' & Hs & Hs' & _ & Hver).
    destruct (decide (nm = name)) as [->|Hnm].
    + destruct n as [|k]; cbn in *; [destruct Hinv; congruence|].
      destruct Hinv as (s0 & Hs0 & Hver0 & Hhist).
      exists s'. split; [done|]. unfold history in *. rewrite Hv'.
      split; [|done]. congruence.
    + eapply versions_inv_other; [| |done]; [by apply Hso | by rewrite Hv'].
Qed.

Lemma versions_inv_run name ops r n :
  versions_inv name r n →
  versions_inv name (run ops r) (live_registrations name ops r n).
Proof.
  revert r n. induction ops as [|o ops IH]; intros r n Hinv; cbn; [done|].
  by apply IH, versions_inv_step.
Qed.

Lemma versions_inv_new name : versions_inv name NewSchemaRegistry 0.
Proof. done. Qed.

Lemma wrap_seqZ (n : Z) :
  (n ≤ GoInt.max_int)%Z → GoInt.wrap <$> seqZ 1 n = seqZ 1 n.
Proof.
  intros Hn. rewrite <- (list_fmap_id (seqZ 1 n)) at 2.
  apply list_fmap_ext. intros i z [-> Hz]%lookup_seqZ.
  apply wrap_in_range.
  unfold id, GoInt.in_range, GoInt.min_int, GoInt.max_int in *. lia.
Qed.

End Versions.

Lemma versions_inv_reads (name : string) (r : SchemaRegistry) (k : nat) :
  versions_inv name r (S k) →
  (Z.of_nat (S k) ≤ GoInt.max_int)%Z →
  ∃ s, Get name r = Ok s
    ∧ Version s = Z.of_nat (S k)
    ∧ GetVersions name r = Ok (history r name ++ [snapshot s])
    ∧ length (history r name ++ [snapshot s]) = S k
    ∧ VVersion <$> (history r name ++ [snapshot s]) = seqZ 1 (Z.of_nat (S k)).
Proof.
  intros (s & Hs & Hver & Hhist) Hk. exists s.
  rewrite wrap_in_range in Hver
    by (unfold GoInt.in_range, GoInt.min_int, GoInt.max_int in *; lia).
  rewrite wrap_seqZ in Hhist by lia.
  unfold Get, GetVersions. rewrite Hs. repeat split; [done|..].
  - rewrite length_app; cbn.
    rewrite <- (length_fmap VVersion), Hhist, length_seqZ. lia.
  - rewrite fmap_app, Hhist; cbn. rewrite Hver.
    replace (Z.of_nat (S k)) with (Z.of_nat k + 1)%Z by lia.
    rewrite seqZ_app by lia.
    change (seqZ (1 + Z.of_nat k) 1) with [(0 + (1 + Z.of_nat k))%Z].
    do 2 f_equal. lia.
Qed.

(** C1: take any history of the registry and any name, and let [n] be the
    number of successful [Register] calls for the name since it was last
    deleted (or since the start); [n] is below the wrap-around of [int].
    If [n] is zero the name is not registered.  Otherwise the current version
    is [n], and [GetVersions] returns [n] records whose versions are
    [1, 2, ..., n] in this order, the last being the current schema's.  One
    more successful [Register] installs version [n + 1], which is the
    existing version plus one when the name was registered, and the records
    [GetVersions] returns afterwards are those of before, the superseded
    current schema's among them, followed by the new current one. *)
Theorem Register_versions_contiguous {go : GoLib} (ops : list op)
    (name : string) :
  let r := run ops NewSchemaRegistry in
  let n := live_registrations name ops NewSchemaRegistry 0 in
  (Z.of_nat n < GoInt.max_int)%Z →
  (n = 0 → Get name r = Err (not_found name))
  ∧ (0 < n →
       ∃ s vs, Get name r = Ok s
         ∧ Version s = Z.of_nat n
         ∧ GetVersions name r = Ok vs
         ∧ length vs = n
         ∧ VVersion <$> vs = seqZ 1 (Z.of_nat n)
         ∧ last vs = Some (snapshot s))
  ∧ (∀ ty schema opts now r',
       Register name ty schema opts now r = (r', None) →
       ∃ s' vs', Get name r' = Ok s'
         ∧ Version s' = (Z.of_nat n + 1)%Z
         ∧ GetVersions name r' = Ok vs'
         ∧ length vs' = S n
         ∧ VVersion <$> vs' = seqZ 1 (Z.of_nat n + 1)
         ∧ (∀ s vs, Get name r = Ok s → GetVersions name r = Ok vs →
              Version s' = (Version s + 1)%Z
              ∧ last (history r' name) = Some (snapshot s)
              ∧ vs' = vs ++ [snapshot s'])).
Proof.
  intros r n Hn.
  pose proof (versions_inv_run name ops NewSchemaRegistry 0
                (versions_inv_new name)) as Hinv.
  fold r n in Hinv. split; [|split].
  - intros Hz. rewrite Hz in Hinv. destruct Hinv as [Hnone _].
    unfold Get. by rewrite Hnone.
  - intros Hpos. destruct n as [|k]; [lia|].
    destruct (versions_inv_reads name r k Hinv ltac:(lia))
      as (s & Hget & Hver & Hvs & Hlen & Hseq).
    exists s, (history r name ++ [snapshot s]).
    rewrite last_snoc. done.
  - intros ty schema opts now r' Hreg.
    pose proof (versions_inv_step name (OpRegister name ty schema opts now)
                  r n Hinv) as Hinv'.
    cbn in Hinv'. rewrite Hreg in Hinv'. cbn in Hinv'.
    rewrite decide_True in Hinv' by done.
    destruct (versions_inv_reads name r' n Hinv' ltac:(lia))
      as (s' & Hget' & Hver' & Hvs' & Hlen' & Hseq').
    exists s', (history r' name ++ [snapshot s']).
    replace (Z.of_nat n + 1)%Z with (Z.of_nat (S n)) by lia.
    do 5 (split; [done|]).
    intros s vs Hs%Get_Ok Hvs. unfold GetVersions in Hvs. rewrite Hs in Hvs.
    injection Hvs as <-.
    apply Register_succeeds in Hreg
      as (_ & _ & _ & _ & _ & s1 & _ & _ & _ & _ & _ & _ & _ & _ & Hh).
    rewrite Hs in Hh. rewrite Hh, last_snoc. repeat split.
    destruct n as [|k].
    { destruct Hinv as [Hnone _]. congruence. }
    destruct (versions_inv_reads name r k Hinv ltac:(lia))
      as (s0 & Hget0%Get_Ok & Hver0 & _). simplify_eq. lia.
Qed.

Lemma Register_versions_contiguous_witness :
  ∃ s vs,
    Get "OrderEvent" (run (go := Sample.lib) Sample.orders NewSchemaRegistry)
      = Ok s
    ∧ Version s = 2%Z
    ∧ GetVersions "OrderEvent"
        (run (go := Sample.lib) Sample.orders NewSchemaRegistry) = Ok vs
    ∧ length vs = 2
    ∧ VVersion <$> vs = [1; 2]%Z
    ∧ last vs = Some (snapshot s).
Proof.
  apply (Register_versions_contiguous (go := Sample.lib) Sample.orders
           "OrderEvent").
  - vm_compute. reflexivity.
  - vm_compute. lia.
Defined.

(** ** Ids *)

Section Ids.
Context {go : GoLib}.

Lemma issued_by_Register name ty schema opts now r r' :
  Register name ty schema opts now r = (r', None) →
  issued_by (OpRegister name ty schema opts now) r = Some (nextID r).
Proof.
  intros Hreg. unfold issued_by; cbn. rewrite Hreg; cbn.
  apply Register_succeeds in Hreg
    as (_ & _ & _ & _ & _ & s' & Hs' & Hid & _).
  by rewrite Hs', <- Hid.
Qed.

(** One call: either it hands out no id, and then the counter and the ids
    held by the current schemas stay, or it is a successful [Register], which
    hands out the counter's value and advances the counter. *)
Lemma step_ids o r :
  (issued_by o r = None
   ∧ nextID (step o r).1 = nextID r
   ∧ ∀ name s', schemas (step o r).1 !! name = Some s' →
       ∃ s, schemas r !! name = Some s ∧ ID s' = ID s)
  ∨ (issued_by o r = Some (nextID r)
     ∧ nextID (step o r).1 = GoInt.add (nextID r) 1
     ∧ ∃ nm ty schema opts now,
         o = OpRegister nm ty schema opts now
         ∧ (step o r).2 = None
         ∧ (∃ s', schemas (step o r).1 !! nm = Some s' ∧ ID s' = nextID r)
         ∧ ∀ other, other ≠ nm →
             schemas (step o r).1 !! other = schemas r !! other).
Proof.
  destruct o as [nm ty schema opts now | nm | nm mode now].
  - destruct (Register nm ty schema opts now r) as [r' [err|]] eqn:Hreg.
    + left. unfold issued_by. cbn. rewrite Hreg. cbn.
      apply Register_fails in Hreg as [-> _]. eauto.
    + right. rewrite (issued_by_Register _ _ _ _ _ _ _ Hreg).
      cbn. rewrite Hreg. cbn.
      apply Register_succeeds in Hreg
        as (_ & Hnext & _ & Hso & _ & s' & Hs' & Hid & _).
      repeat split; [done|]. exists nm, ty, schema, opts, now.
      split; [done|]. split; [done|]. split; [by exists s'|done].
  - left. cbn. destruct (Delete nm r) as [r' [err|]] eqn:Hdel; cbn.
    + apply Delete_fails in Hdel as ->. eauto.
    + apply Delete_succeeds in Hdel as (_ & Hs' & _ & Hnext).
      repeat split; [done|]. intros name s'. rewrite Hs'.
      intros [_ Hs]%lookup_delete_Some. eauto.
  - left. cbn.
    destruct (SetCompatibility nm mode now r) as [r' [err|]] eqn:Hset; cbn.
    + apply SetCompatibility_fails in Hset as ->. eauto.
    + apply SetCompatibility_succeeds in Hset
        as (_ & Hnext & Hso & s & s' & Hs & Hs' & Hid & _).
      repeat split; [done|]. intros name s1 Hs1.
      destruct (decide (name = nm)) as [->|Hne].
      * exists s. split; [done|]. congruence.
      * rewrite Hso in Hs1 by done. eauto.
Qed.

Lemma ids_inv_new : ids_inv NewSchemaRegistry 0.
Proof. split; [done|]. split; intros *; cbn; by rewrite lookup_empty. Qed.

Lemma ids_inv_step o r k :
  ids_inv r k →
  (Z.of_nat (k + length (option_list (issued_by o r))) < GoInt.max_int)%Z →
  ids_inv (step o r).1 (k + length (option_list (issued_by o r)))
  ∧ option_list (issued_by o r)
    = seqZ (1 + Z.of_nat k) (Z.of_nat (length (option_list (issued_by o r)))).
Proof.
  intros (Hnext & Hrange & Hinj) Hk.
  destruct (step_ids o r) as [(Hnone & Hn' & Hold) | (Hsome & Hn' & Hreg)].
  - rewrite Hnone in *. cbn in *. rewrite Nat.add_0_r. split; [|done].
    split; [congruence|]. split.
    + intros name s' (s & Hs & ->)%Hold. eauto.
    + intros n1 n2 s1 s2 (t1 & Ht1 & ->)%Hold (t2 & Ht2 & ->)%Hold. eauto.
  - rewrite Hsome in *. cbn in *.
    destruct Hreg as (nm & ty & schema & opts & now & -> & _ & (s' & Hs' & Hid)
                      & Hother).
    split; [|by rewrite Hnext].
    split; [|split].
    + rewrite Hn', Hnext. rewrite add_succ by lia. lia.
    + intros name s1 Hs1. destruct (decide (name = nm)) as [->|Hne].
      * simplify_eq. lia.
      * rewrite Hother in Hs1 by done. apply Hrange in Hs1. lia.
    + intros n1 n2 s1 s2 Hs1 Hs2 Heq.
      destruct (decide (n1 = nm)) as [->|Hne1];
        destruct (decide (n2 = nm)) as [->|Hne2]; [done|..].
      * rewrite Hother in Hs2 by done. apply Hrange in Hs2.
        simplify_eq. lia.
      * rewrite Hother in Hs1 by done. apply Hrange in Hs1.
        simplify_eq. lia.
      * rewrite Hother in Hs1, Hs2 by done. eauto.
Qed.

Lemma ids_inv_run ops r k :
  ids_inv r k →
  (Z.of_nat (k + length (issued ops r)) < GoInt.max_int)%Z →
  ids_inv (run ops r) (k + length (issued ops r))
  ∧ issued ops r = seqZ (1 + Z.of_nat k) (Z.of_nat (length (issued ops r))).
Proof.
  revert r k. induction ops as [|o ops IH]; intros r k Hinv Hk; cbn in *.
  { rewrite Nat.add_0_r. done. }
  rewrite length_app in *.
  destruct (ids_inv_step o r k Hinv ltac:(lia)) as [Hinv' Hone].
  destruct (IH _ _ Hinv' ltac:(lia)) as [Hinv'' Hrest].
  rewrite Nat.add_assoc. split; [done|].
  rewrite Nat2Z.inj_add, seqZ_app by lia.
  rewrite <- Hone. f_equal. rewrite Hrest at 1. f_equal. lia.
Qed.

Lemma seqZ_sorted (m n : Z) : StronglySorted Z.lt (seqZ m n).
Proof.
  remember (Z.to_nat n) as k eqn:Hk. revert m n Hk.
  induction k as [|k IH]; intros m n Hk.
  - rewrite seqZ_nil by lia. constructor.
  - rewrite seqZ_cons by lia. constructor.
    + apply IH. lia.
    + apply Forall_forall.
      intros x [i [-> _]%lookup_seqZ]%list_elem_of_lookup. lia.
Qed.

End Ids.

(** C3: along every history from [NewSchemaRegistry] in which fewer than
    [2^63 - 1] ids are handed out (the counter is an [int]), the ids handed
    out are [1, 2, 3, ...] in the order of the calls: strictly increasing and
    never repeated, also across deletions.  At every call of the history the
    counter does not decrease; a successful [Register], of a new name or of a
    registered one, gives the installed schema the counter's value, which
    exceeds every id held at that moment, and advances the counter by one;
    [Delete] leaves the counter alone.  In the registry the history ends in,
    no two names hold the same id, and every id held was handed out by a
    call of the history. *)
Theorem issued_ids_strictly_increasing {go : GoLib} (ops : list op) :
  let ids := issued ops NewSchemaRegistry in
  let r := run ops NewSchemaRegistry in
  (Z.of_nat (length ids) < GoInt.max_int)%Z →
  ids = seqZ 1 (Z.of_nat (length ids))
  ∧ StronglySorted Z.lt ids
  ∧ NoDup ids
  ∧ (∀ ops1 o ops2, ops = ops1 ++ o :: ops2 →
       let r1 := run ops1 NewSchemaRegistry in
       (nextID r1 ≤ nextID (step o r1).1)%Z
       ∧ (∀ name ty schema opts now,
            o = OpRegister name ty schema opts now → (step o r1).2 = None →
            ID <$> schemas (step o r1).1 !! name = Some (nextID r1)
            ∧ nextID (step o r1).1 = (nextID r1 + 1)%Z
            ∧ ∀ other s, schemas r1 !! other = Some s → (ID s < nextID r1)%Z)
       ∧ (∀ name, o = OpDelete name → nextID (step o r1).1 = nextID r1))
  ∧ (∀ n1 n2 s1 s2,
       schemas r !! n1 = Some s1 → schemas r !! n2 = Some s2 →
       ID s1 = ID s2 → n1 = n2)
  ∧ (∀ name s, schemas r !! name = Some s → ID s ∈ ids).
Proof.
  intros ids r Hlen.
  destruct (ids_inv_run ops NewSchemaRegistry 0 ids_inv_new Hlen)
    as [(Hnext & Hrange & Hinj) Hseq].
  fold ids r in Hseq, Hnext, Hrange, Hinj. cbn in Hseq.
  split; [done|]. split; [rewrite Hseq; apply seqZ_sorted|].
  split; [rewrite Hseq; apply NoDup_seqZ|].
  split; [|split; [done|]].
  - intros ops1 o ops2 -> r1. subst ids.
    rewrite issued_app, length_app in Hlen. cbn in Hlen.
    rewrite length_app in Hlen. fold r1 in Hlen.
    destruct (ids_inv_run ops1 NewSchemaRegistry 0 ids_inv_new ltac:(lia))
      as [(Hnext1 & Hrange1 & _) _].
    fold r1 in Hnext1, Hrange1. cbn in Hnext1, Hrange1.
    destruct (step_ids o r1) as [(Hnone & Hn' & _) | (Hsome & Hn' & _)].
    + rewrite Hn'. split; [lia|]. split; [|done].
      intros name ty schema opts now -> Hok. cbn in Hok.
      destruct (Register name ty schema opts now r1) as [r' e] eqn:Hreg.
      cbn in Hok. subst e.
      rewrite (issued_by_Register _ _ _ _ _ _ _ Hreg) in Hnone. done.
    + rewrite Hsome in Hlen. cbn in Hlen.
      rewrite Hn', add_succ by lia. split; [lia|]. split.
      * intros name ty schema opts now -> Hok. cbn in Hok.
        destruct (Register name ty schema opts now r1) as [r' e] eqn:Hreg.
        cbn in Hok. subst e. cbn. rewrite Hreg. cbn.
        apply Register_succeeds in Hreg
          as (_ & _ & _ & _ & _ & s' & Hs' & Hid & _).
        rewrite Hs'. cbn. rewrite Hid. repeat split.
        intros other s Hs%Hrange1. lia.
      * intros name ->. done.
  - intros name s Hs%Hrange. rewrite Hseq. apply elem_of_seqZ. lia.
Qed.

Lemma issued_ids_strictly_increasing_witness :
  issued (go := Sample.lib)
    (Sample.orders ++ [OpDelete "OrderEvent";
                       OpRegister "OrderEvent" SchemaTypeJSON
                         Sample.order_schema None 30%Z])
    NewSchemaRegistry = [1; 2; 3]%Z
  ∧ StronglySorted Z.lt
      (issued (go := Sample.lib)
         (Sample.orders ++ [OpDelete "OrderEvent";
                            OpRegister "OrderEvent" SchemaTypeJSON
                              Sample.order_schema None 30%Z])
         NewSchemaRegistry).
Proof.
  pose proof (issued_ids_strictly_increasing (go := Sample.lib)
                (Sample.orders ++ [OpDelete "OrderEvent";
                                   OpRegister "OrderEvent" SchemaTypeJSON
                                     Sample.order_schema None 30%Z])
                ltac:(vm_compute; reflexivity)) as (Hseq & Hsorted & _).
  split; [exact Hseq | exact Hsorted].
Defined.

(** C4, counterexample: [OrderEvent] is registered twice; both calls succeed,
    and the current schema's [ID] is 1 after the first and 2 after the
    second. *)
Lemma Register_bump_changes_id :
  let r := (Register (go := Sample.lib) "OrderEvent" SchemaTypeJSON
              Sample.order_schema None 10%Z NewSchemaRegistry).1 in
  let r' := (Register (go := Sample.lib) "OrderEvent" SchemaTypeJSON
               Sample.order_schema None 20%Z r).1 in
  (Register (go := Sample.lib) "OrderEvent" SchemaTypeJSON
     Sample.order_schema None 20%Z r).2 = None
  ∧ ID <$> schemas r !! "OrderEvent" = Some 1%Z
  ∧ ID <$> schemas r' !! "OrderEvent" = Some 2%Z
  ∧ ¬ id_kept_by Sample.lib "OrderEvent" SchemaTypeJSON
        Sample.order_schema 10%Z 20%Z.
Proof.
  repeat split; try (vm_compute; reflexivity).
  unfold id_kept_by. vm_compute. intros [=].
Qed.

(** C4, amended: an id is assigned at every successful [Register], a version
    bump included.  In a registry reached from [NewSchemaRegistry] (fewer than
    [2^63 - 1] ids handed out), the schema a successful [Register] installs
    carries the counter's value: it is greater than the id of the schema it
    supersedes, when the name was registered, and greater than the id of
    every other current schema, so ids stay unique among current schemas. *)
Theorem Register_assigns_fresh_id {go : GoLib} (ops : list op) (name : string)
    (ty : SchemaType) (schema : bytes) (opts : option RegisterOptions)
    (now : Time) (r' : SchemaRegistry) :
  let r := run ops NewSchemaRegistry in
  (Z.of_nat (length (issued ops NewSchemaRegistry)) < GoInt.max_int)%Z →
  Register name ty schema opts now r = (r', None) →
  ∃ s', Get name r' = Ok s'
    ∧ ID s' = nextID r
    ∧ (∀ s, Get name r = Ok s → (ID s < ID s')%Z)
    ∧ (∀ other t, other ≠ name → Get other r' = Ok t → (ID t < ID s')%Z).
Proof.
  intros r Hlen Hreg.
  destruct (ids_inv_run ops NewSchemaRegistry 0 ids_inv_new Hlen)
    as [(Hnext & Hrange & _) _].
  fold r in Hnext, Hrange. cbn in Hnext, Hrange.
  apply Register_succeeds in Hreg
    as (_ & _ & _ & Hso & _ & s' & Hs' & Hid & _).
  exists s'. rewrite Get_Ok. repeat split; [done..| |].
  - intros s Hs%Get_Ok%Hrange. lia.
  - intros other t Hne Ht%Get_Ok. rewrite Hso in Ht by done.
    apply Hrange in Ht. lia.
Qed.

Lemma Register_assigns_fresh_id_witness :
  ∃ s', Get "OrderEvent"
          (Register (go := Sample.lib) "OrderEvent" SchemaTypeJSON
             Sample.order_schema None 30%Z
             (run (go := Sample.lib) Sample.orders NewSchemaRegistry)).1
        = Ok s'
    ∧ ID s' = 3%Z.
Proof.
  destruct (Register_assigns_fresh_id (go := Sample.lib) Sample.orders
              "OrderEvent" SchemaTypeJSON Sample.order_schema None 30%Z _
              ltac:(vm_compute; reflexivity) ltac:(vm_compute; reflexivity))
    as (s' & Hs' & Hid & _).
  exists s'. split; [exact Hs' | exact Hid].
Defined.

(** ** The validation engine against the specification's algorithm *)

Section Refinement.
Context {go : GoLib}.

Lemma enum_loop_Return enum s b :
  enum_loop enum s = Return b → b = spec_allowed enum s.
Proof.
  induction enum as [|e enum IH]; cbn; [by intros [= <-]|].
  destruct e; try done. case_decide as Heq.
  - intros [= <-]. by rewrite bool_decide_true.
  - intros Hb. rewrite bool_decide_false by done. cbn. auto.
Qed.

Lemma enum_loop_total enum s :
  all_strings enum = true → ∃ b, enum_loop enum s = Return b.
Proof.
  induction enum as [|e enum IH]; cbn; [eauto|].
  destruct e; cbn; try done. intros Hall. case_decide; eauto.
Qed.

Lemma SFcompare_antisym (a b : spec_float) :
  SFcompare b a = option_map CompOpp (SFcompare a b).
Proof.
  destruct a as [sa|sa| |sa ma ea], b as [sb|sb| |sb mb eb]; cbn; try done;
    try (by destruct sa); try (by destruct sb); try (by destruct sa, sb).
  f_equal. destruct sa, sb; try done.
  - rewrite (Z.compare_antisym eb ea).
    destruct (eb ?= ea)%Z; cbn; try done.
    rewrite (Pos.compare_antisym ma mb
             : Pos.compare_cont Eq mb ma = CompOpp (Pos.compare_cont Eq ma mb)).
    by destruct (Pos.compare_cont Eq ma mb).
  - rewrite (Z.compare_antisym eb ea).
    destruct (eb ?= ea)%Z; cbn; try done.
    apply (Pos.compare_antisym ma mb).
Qed.

(** On floats that are numbers, [x < y] fails exactly when [y <= x]. *)
Lemma float_ltb_leb (x y : float) :
  PrimFloat.is_nan x = false → PrimFloat.is_nan y = false →
  PrimFloat.ltb x y = negb (PrimFloat.leb y x).
Proof.
  unfold PrimFloat.is_nan.
  rewrite !FloatAxioms.eqb_spec, FloatAxioms.ltb_spec, FloatAxioms.leb_spec.
  unfold SFeqb, SFltb, SFleb.
  rewrite (SFcompare_antisym (Prim2SF x) (Prim2SF y)).
  intros Hx Hy.
  assert (∃ c, SFcompare (Prim2SF x) (Prim2SF y) = Some c) as [c ->].
  { destruct (Prim2SF x) as [sa|sa| |sa ma ea];
      destruct (Prim2SF y) as [sb|sb| |sb mb eb]; cbn in *; try done; eauto. }
  by destruct c.
Qed.

Lemma validateField_Return name v propDef o :
  json_scalar v = true →
  json_minimum (VObject propDef) = true →
  validateField name v propDef = Return o → o = spec_field name v propDef.
Proof.
  intros Hv Hmin. unfold validateField, spec_field, spec_declared.
  destruct (propDef !! "type") as [[]|] eqn:Ht; cbn;
    repeat case_decide; try discriminate; try (by intros [= <-]).
  - destruct v; try (by intros [= <-]).
    destruct (propDef !! "enum") as [[]|]; try (by intros [= <-]).
    destruct (enum_loop l s0) as [b|] eqn:Hloop; cbn; [|done].
    apply enum_loop_Return in Hloop as ->.
    destruct (spec_allowed l s0); by intros [= <-].
  - cbn in Hmin.
    destruct v; cbn in Hv |- *; try done; try (by intros [= <-]).
    destruct (propDef !! "minimum") as [[]|]; cbn in Hmin |- *;
      try done; try (by intros [= <-]).
    unfold spec_at_least, number_le.
    apply negb_true_iff in Hv, Hmin.
    rewrite (float_ltb_leb f f0) by done.
    destruct (PrimFloat.leb f0 f); by intros [= <-].
  - destruct v; by intros [= <-].
  - destruct v; by intros [= <-].
  - destruct v; by intros [= <-].
Qed.

Lemma validateField_total name v propDef :
  property_well_shaped (VObject propDef) = true →
  ∃ o, validateField name v propDef = Return o.
Proof.
  unfold property_well_shaped, validateField. intros Hshape.
  repeat case_decide.
  - destruct v; eauto.
    destruct (propDef !! "enum") as [[]|]; eauto.
    destruct (enum_loop_total l s Hshape) as [b ->]. cbn.
    destruct b; eauto.
  - destruct v; eauto.
    destruct (propDef !! "minimum") as [[]|]; eauto.
    destruct (PrimFloat.ltb f f0); eauto.
  - destruct v; eauto.
  - destruct v; eauto.
  - destruct v; eauto.
  - eauto.
Qed.

Lemma required_loop_Return dataMap required acc errs :
  required_loop dataMap required acc = Return errs →
  errs = acc ++ (msg_missing <$>
                   filter (λ name, name ∉ dom dataMap) (omap as_string required)).
Proof.
  revert acc. induction required as [|field rest IH]; intros acc; cbn.
  { intros [= <-]. by rewrite app_nil_r. }
  destruct field; try done.
  change (as_string (VString s)) with (Some s). cbv iota. rewrite filter_cons.
  destruct (dataMap !! s) as [v|] eqn:Hs.
  - rewrite decide_False; [by apply IH|].
    intros Hnot. apply Hnot, elem_of_dom. eauto.
  - rewrite decide_True by (by apply not_elem_of_dom).
    intros ->%IH. by rewrite <- (assoc_L (++)).
Qed.

Lemma required_loop_total dataMap required acc :
  all_strings required = true →
  ∃ errs, required_loop dataMap required acc = Return errs.
Proof.
  revert acc. induction required as [|field rest IH]; intros acc; cbn; [eauto|].
  destruct field; cbn; try done. intros Hall.
  destruct (dataMap !! s); eauto.
Qed.

Lemma properties_loop_Return properties entries acc errs :
  Forall (λ entry, json_scalar entry.2 = true) entries →
  (∀ k propDef, properties !! k = Some propDef → json_minimum propDef = true) →
  properties_loop properties entries acc = Return errs →
  errs = acc ++ omap (spec_entry properties) entries.
Proof.
  intros Hentries Hmins. revert acc.
  induction Hentries as [|[k v] rest Hv _ IH]; intros acc; cbn.
  { intros [= <-]. by rewrite app_nil_r. }
  unfold spec_entry at 1; cbn.
  destruct (properties !! k) as [[]|] eqn:Hk; try done; [|by apply IH].
  destruct (validateField k v m) as [o|] eqn:Hfield; cbn; [|done].
  apply validateField_Return in Hfield as ->; [|done|by eapply Hmins].
  destruct (spec_field k v m); [|by apply IH].
  intros ->%IH. by rewrite <- (assoc_L (++)).
Qed.

Lemma properties_loop_total properties entries acc :
  forallb (λ kv, property_well_shaped kv.2) (map_to_list properties) = true →
  ∃ errs, properties_loop properties entries acc = Return errs.
Proof.
  intros Hshape. revert acc.
  induction entries as [|[k v] rest IH]; intros acc; cbn; [eauto|].
  destruct (properties !! k) as [propDef|] eqn:Hk; [|done].
  assert (property_well_shaped propDef = true) as Hp.
  { rewrite forallb_forall in Hshape.
    apply (Hshape (k, propDef)), list_elem_of_In, elem_of_map_to_list, Hk. }
  destruct propDef; try done.
  destruct (validateField_total k v m Hp) as [o ->]. cbn.
  destruct o; done.
Qed.

Lemma validateJSON_result (errs : list string) :
  (if decide (0 < length errs)
   then Return {| Valid := false;
                  Errors := errs;
                  Message := pretty (Z.of_nat (length errs))
                               +:+ "개의 검증 오류" |}
   else Return {| Valid := true; Errors := []; Message := "검증 성공" |})
  = Return (spec_result errs).
Proof.
  unfold spec_result. destruct errs as [|e errs]; cbn; [done|].
  rewrite decide_True by lia. done.
Qed.

End Refinement.

Section Phases.
Context {go : GoLib}.

Lemma spec_entry_empty entries : omap (spec_entry ∅) entries = [].
Proof.
  induction entries as [|[k v] rest IH]; cbn; [done|].
  unfold spec_entry at 1; cbn. by rewrite lookup_empty.
Qed.

Lemma required_phase dataMap schemaMap errs :
  match schemaMap !! "required" with
  | Some (VArray required) => required_loop dataMap required []
  | _ => Return []
  end = Return errs →
  errs = spec_missing dataMap schemaMap.
Proof.
  unfold spec_missing, spec_required.
  destruct (schemaMap !! "required") as [[]|]; try (by intros [= <-]).
  by intros ->%required_loop_Return.
Qed.

Lemma properties_phase dataMap schemaMap acc errs :
  json_payload dataMap = true →
  json_minimums schemaMap = true →
  match schemaMap !! "properties" with
  | Some (VObject properties) =>
      properties_loop properties (map_range dataMap) acc
  | _ => Return acc
  end = Return errs →
  ∃ violations, violations ≡ₚ spec_violations dataMap schemaMap
    ∧ errs = acc ++ violations.
Proof.
  unfold spec_violations, json_payload, json_minimums, spec_properties.
  intros Hpayload Hmins.
  destruct (schemaMap !! "properties") as [[]|];
    try (intros [= <-]; exists []; by rewrite spec_entry_empty, app_nil_r).
  intros ->%properties_loop_Return.
  - eexists. split; [|done]. by rewrite map_range_perm.
  - rewrite map_range_perm. apply Forall_forall. intros entry Hin.
    rewrite forallb_forall in Hpayload. by apply Hpayload, list_elem_of_In.
  - intros k propDef Hk. rewrite forallb_forall in Hmins.
    apply (Hmins (k, propDef)), list_elem_of_In, elem_of_map_to_list, Hk.
Qed.

Lemma validateJSON_total schema data :
  (∀ schemaMap, json_unmarshal_map (Schema schema) = Ok schemaMap →
     well_shaped schemaMap = true) →
  ∃ res, validateJSON schema data = Return res.
Proof.
  intros Hshape. unfold validateJSON.
  destruct (json_unmarshal_map data) as [dataMap|]; [|eauto].
  destruct (json_unmarshal_map (Schema schema)) as [schemaMap|]; [|eauto].
  specialize (Hshape _ eq_refl). unfold well_shaped in Hshape.
  apply andb_true_iff in Hshape as [Hreq Hprops].
  assert (∃ errs1, match schemaMap !! "required" with
                   | Some (VArray required) => required_loop dataMap required []
                   | _ => Return []
                   end = Return errs1) as [errs1 ->].
  { destruct (schemaMap !! "required") as [[]|]; eauto.
    by apply required_loop_total. }
  cbn.
  assert (∃ errs2, match schemaMap !! "properties" with
                   | Some (VObject properties) =>
                       properties_loop properties (map_range dataMap) errs1
                   | _ => Return errs1
                   end = Return errs2) as [errs2 ->].
  { destruct (schemaMap !! "properties") as [[]|]; eauto.
    by apply properties_loop_total. }
  cbn. rewrite validateJSON_result. eauto.
Qed.

Lemma required_loop_panics dataMap required acc :
  all_strings required = false → required_loop dataMap required acc = Panic.
Proof.
  revert acc. induction required as [|field rest IH]; intros acc; cbn; [done|].
  destruct field; cbn; try done. intros Hall.
  destruct (dataMap !! s); by apply IH.
Qed.

End Phases.

Lemma Validate_JSON {go : GoLib} (name : string) (data : bytes)
    (r : SchemaRegistry) (s : SchemaInfo) :
  Get name r = Ok s → Type_ s = SchemaTypeJSON →
  Validate name data r = validateJSON s data.
Proof.
  intros Hget Hty. unfold Validate. by rewrite Hget, decide_True.
Qed.



(** Why the comparison is stated for what [json.Unmarshal] stores: on an
    [int], which the decoder never stores, the code accepts a value below
    the minimum, and on a float that is not a number its test [v < min]
    fails, where the algorithm asks for [value ≥ minimum]. *)
Example validateField_int_below_minimum :
  validateField (go := Sample.lib) "amount" (VInt 1)
    (list_to_map [("type", VString "number"); ("minimum", VFloat64 5%float)])
  = Return None
  ∧ spec_field (go := Sample.lib) "amount" (VInt 1)
      (list_to_map [("type", VString "number"); ("minimum", VFloat64 5%float)])
    = Some (msg_minimum "amount" (fmt_float64 (GoLib := Sample.lib) 5%float)).
Proof. split; vm_compute; reflexivity. Qed.

Example validateField_not_a_number :
  validateField (go := Sample.lib) "amount" (VFloat64 nan)
    (list_to_map [("type", VString "number"); ("minimum", VFloat64 5%float)])
  = Return None
  ∧ spec_field (go := Sample.lib) "amount" (VFloat64 nan)
      (list_to_map [("type", VString "number"); ("minimum", VFloat64 5%float)])
    = Some (msg_minimum "amount" (fmt_float64 (GoLib := Sample.lib) 5%float)).
Proof. split; vm_compute; reflexivity. Qed.

(** ** Totality of validation *)

(** C10: [Validate] returns a result for every payload, whatever its bytes,
    when the definition of the schema it finds, if it is of kind JSON and
    parses, is well shaped: the entries of a [required] array are strings,
    the values of a [properties] mapping are objects, and the entries of an
    [enum] array declared by such an object are strings. *)
Theorem Validate_total {go : GoLib} (name : string) (data : bytes)
    (r : SchemaRegistry) :
  (∀ s schemaMap,
     Get name r = Ok s → Type_ s = SchemaTypeJSON →
     json_unmarshal_map (Schema s) = Ok schemaMap →
     well_shaped schemaMap = true) →
  ∃ res, Validate name data r = Return res.
Proof.
  intros Hshape. unfold Validate.
  destruct (Get name r) as [s|] eqn:Hget; [|eauto].
  case_decide as Hty; [|repeat case_decide; eauto].
  apply validateJSON_total. eauto.
Qed.

Lemma Validate_total_witness :
  ∃ res,
    Validate (go := Sample.lib) "OrderEvent" Sample.bad_order
      (run (go := Sample.lib) Sample.orders NewSchemaRegistry) = Return res.
Proof.
  apply (Validate_total (go := Sample.lib)).
  intros s schemaMap Hget Hty Hmap.
  vm_compute in Hget. injection Hget as <-.
  vm_compute in Hmap. injection Hmap as <-.
  vm_compute. reflexivity.
Defined.

(** The precondition of [Validate_total] cannot be dropped: a [required]
    array with an entry that is not a string makes [validateJSON] panic on
    every payload that parses. *)
Lemma validateJSON_panics_on_required {go : GoLib} (schema : SchemaInfo)
    (data : bytes) (dataMap schemaMap : gmap string value)
    (required : list value) :
  json_unmarshal_map data = Ok dataMap →
  json_unmarshal_map (Schema schema) = Ok schemaMap →
  schemaMap !! "required" = Some (VArray required) →
  all_strings required = false →
  validateJSON schema data = Panic.
Proof.
  intros Hdata Hschema Hreq Hall. unfold validateJSON.
  rewrite Hdata, Hschema, Hreq.
  by rewrite required_loop_panics.
Qed.

(** ** The engine on the registry's own documents *)

(** The payloads of the specification's section 8 against [OrderEventSchema],
    and one schema for each of the three unchecked type assertions. *)

Example Validate_good_order :
  Validate (go := Sample.lib) "OrderEvent" Sample.good_order
    (run (go := Sample.lib) Sample.orders NewSchemaRegistry)
  = Return {| Valid := true; Errors := []; Message := "검증 성공" |}.
Proof. vm_compute. reflexivity. Qed.

Example Validate_bad_order :
  Validate (go := Sample.lib) "OrderEvent" Sample.bad_order
    (run (go := Sample.lib) Sample.orders NewSchemaRegistry)
  = Return {| Valid := false;
              Errors := ["필수 필드 누락: customer_id";
                         "필수 필드 누락: created_at";
                         "필드 'status'의 값 'bogus'는 허용되지 않습니다";
                         "필드 'amount'의 값은 0 이상이어야 합니다"];
              Message := "4개의 검증 오류" |}.
Proof. vm_compute. reflexivity. Qed.

Example Validate_truncated_payload :
  Validate (go := Sample.lib) "OrderEvent" Sample.truncated
    (run (go := Sample.lib) Sample.orders NewSchemaRegistry)
  = Return {| Valid := false;
              Errors := ["JSON 파싱 실패: " +:+ Sample.syntax_error];
              Message := "잘못된 JSON 형식" |}.
Proof. vm_compute. reflexivity. Qed.

Example validateJSON_required_number_panics :
  validateJSON (go := Sample.lib) (Sample.json_schema Sample.odd_schema)
    Sample.empty_object = Panic.
Proof. vm_compute. reflexivity. Qed.

Example validateJSON_flat_property_panics :
  validateJSON (go := Sample.lib) (Sample.json_schema Sample.flat_schema)
    Sample.bad_order = Panic.
Proof. vm_compute. reflexivity. Qed.

Example validateJSON_enum_number_panics :
  validateJSON (go := Sample.lib) (Sample.json_schema Sample.odd_enum_schema)
    Sample.bad_order = Panic.
Proof. vm_compute. reflexivity. Qed.

(** A payload without the flat property, or without the property whose enum
    is odd, does not reach the assertion. *)
Example validateJSON_flat_property_unreached :
  validateJSON (go := Sample.lib) (Sample.json_schema Sample.flat_schema)
    Sample.empty_object
  = Return {| Valid := true; Errors := []; Message := "검증 성공" |}.
Proof. vm_compute. reflexivity. Qed.

(** * The rest of the code *)

(** ** Reading versions *)

Section ReadVersions.
Context {go : GoLib}.

Lemma find_by_key {A : Type} (key : A → Z) (l : list A) (i : nat) (x : A) :
  NoDup (key <$> l) → l !! i = Some x →
  List.find (λ y, bool_decide (key y = key x)) l = Some x.
Proof.
  revert i. induction l as [|a l IH]; intros i Hnd Hi; [done|].
  cbn in Hnd. apply NoDup_cons in Hnd as [Hnotin Hnd].
  destruct i as [|i]; cbn in *.
  - injection Hi as ->. by rewrite bool_decide_true.
  - rewrite bool_decide_false; [by eapply IH|].
    intros Heq. apply Hnotin. rewrite Heq.
    apply list_elem_of_fmap. exists x. split; [done|].
    by eapply list_elem_of_lookup_2.
Qed.

Lemma GetVersions_Ok name r vs :
  GetVersions name r = Ok vs ↔
  ∃ s, schemas r !! name = Some s ∧ vs = history r name ++ [snapshot s].
Proof.
  unfold GetVersions. destruct (schemas r !! name) as [s|]; split.
  - intros [= <-]. eauto.
  - intros (s0 & [= <-] & ->). done.
  - done.
  - by intros (s0 & ? & _).
Qed.

Lemma GetVersion_found name v r rec :
  GetVersion name v r = Ok rec →
  VVersion rec = v
  ∧ ∃ s, schemas r !! name = Some s ∧ rec ∈ history r name ++ [snapshot s].
Proof.
  unfold GetVersion. destruct (schemas r !! name) as [s|]; [|done].
  case_decide as Hv.
  - intros [= <-]. split; [done|]. exists s. split; [done|].
    apply elem_of_app. right. by apply list_elem_of_singleton.
  - destruct (List.find _ (history r name)) as [rec'|] eqn:Hfind; [|done].
    intros [= <-]. apply List.find_some in Hfind as [Hin Hb].
    apply bool_decide_eq_true in Hb. split; [done|]. exists s.
    split; [done|]. apply elem_of_app. left. by apply list_elem_of_In.
Qed.

Lemma GetVersion_missing name v r s :
  schemas r !! name = Some s →
  v ∉ VVersion <$> (history r name ++ [snapshot s]) →
  GetVersion name v r
    = Err ("버전을 찾을 수 없습니다: " +:+ name +:+ " v" +:+ pretty v).
Proof.
  intros Hs Hnotin. unfold GetVersion. rewrite Hs.
  rewrite fmap_app, not_elem_of_app in Hnotin. destruct Hnotin as [Hh Hc].
  rewrite decide_False.
  2: { intros Heq. apply Hc. cbn. rewrite Heq. by apply list_elem_of_singleton. }
  destruct (List.find _ (history r name)) as [rec|] eqn:Hfind; [|done].
  apply List.find_some in Hfind as [Hin Hb].
  apply bool_decide_eq_true in Hb. exfalso. apply Hh.
  apply list_elem_of_fmap. exists rec. split; [done|]. by apply list_elem_of_In.
Qed.

End ReadVersions.



Lemma GetVersion_at (name : string) (r : SchemaRegistry) (k : nat)
    (s : SchemaInfo) (v : Z) :
  versions_inv name r (S k) →
  (Z.of_nat (S k) ≤ GoInt.max_int)%Z →
  schemas r !! name = Some s →
  (1 ≤ v ≤ Z.of_nat (S k))%Z →
  ∃ rec, GetVersion name v r = Ok rec
    ∧ VVersion rec = v
    ∧ (history r name ++ [snapshot s]) !! Z.to_nat (v - 1) = Some rec.
Proof.
  intros Hinv Hk Hs Hv.
  destruct (versions_inv_reads name r k Hinv Hk)
    as (s0 & Hget%Get_Ok & Hver & _ & Hlen & Hseq).
  simplify_eq.
  assert (∃ rec, (history r name ++ [snapshot s]) !! Z.to_nat (v - 1)
                 = Some rec ∧ VVersion rec = v) as (rec & Hrec & Hvrec).
  { assert ((VVersion <$> history r name ++ [snapshot s])
              !! Z.to_nat (v - 1) = Some v) as Hlook.
    { rewrite Hseq. rewrite lookup_seqZ. split; lia. }
    rewrite list_lookup_fmap in Hlook.
    destruct ((history r name ++ [snapshot s]) !! Z.to_nat (v - 1))
      as [rec|]; [|done].
    injection Hlook as Hlook. eauto. }
  exists rec. split; [|done].
  unfold GetVersion. rewrite Hs.
  rewrite length_app in Hlen. cbn in Hlen.
  case_decide as Hcur.
  - rewrite lookup_app_r in Hrec by lia.
    replace (Z.to_nat (v - 1) - length (history r name)) with 0 in Hrec
      by lia.
    by injection Hrec as <-.
  - rewrite lookup_app_l in Hrec by lia.
    subst v.
    assert (NoDup (VVersion <$> history r name)) as Hnd.
    { pose proof (NoDup_seqZ 1 (Z.of_nat (S k))) as Hnd.
      rewrite <- Hseq, fmap_app in Hnd. by apply NoDup_app in Hnd as [Hnd _]. }
    by rewrite (find_by_key VVersion _ _ _ Hnd Hrec).
Qed.



(** ** What later calls leave of earlier versions *)

Section Kept.
Context {go : GoLib}.

Lemma SetCompatibility_keeps name mode now r r' :
  SetCompatibility name mode now r = (r', None) →
  ∃ s, schemas r !! name = Some s
    ∧ schemas r'
      = <[name := {| ID := ID s; Name := Name s; Version := Version s;
                     Type_ := Type_ s; Schema := Schema s;
                     Compatibility := mode; Description := Description s;
                     CreatedAt := CreatedAt s; UpdatedAt := now |}]>
          (schemas r)
    ∧ versions r' = versions r
    ∧ nextID r' = nextID r
    ∧ defaultCompat r' = defaultCompat r.
Proof.
  unfold SetCompatibility. destruct (schemas r !! name) as [s|]; [|done].
  intros [= <-]. eauto 10.
Qed.

Lemma GetVersions_step name o r vs :
  o ≠ OpDelete name →
  GetVersions name r = Ok vs →
  ∃ vs', GetVersions name (step o r).1 = Ok vs' ∧ vs `prefix_of` vs'.
Proof.
  intros Hkeep (s & Hs & ->)%GetVersions_Ok.
  destruct o as [nm ty schema opts now | nm | nm mode now]; cbn.
  - destruct (Register nm ty schema opts now r) as [r' [err|]] eqn:Hreg; cbn.
    { apply Register_fails in Hreg as [-> _]. eexists. split; [|done].
      apply GetVersions_Ok. eauto. }
    apply Register_succeeds in Hreg
      as (_ & _ & _ & Hso & Hvo & s' & Hs' & _ & _ & _ & _ & _ & _ & _ & Hh).
    destruct (decide (nm = name)) as [->|Hne].
    + rewrite Hs in Hh. eexists. split.
      * apply GetVersions_Ok. eauto.
      * rewrite Hh. by eexists.
    + eexists. split; [|done]. apply GetVersions_Ok. exists s.
      rewrite Hso by done. split; [done|].
      unfold history. by rewrite Hvo.
  - destruct (Delete nm r) as [r' [err|]] eqn:Hdel; cbn.
    { apply Delete_fails in Hdel as ->. eexists. split; [|done].
      apply GetVersions_Ok. eauto. }
    apply Delete_succeeds in Hdel as (_ & Hs' & Hv' & _).
    assert (nm ≠ name) as Hne by congruence.
    eexists. split; [|done]. apply GetVersions_Ok. exists s.
    rewrite Hs', lookup_delete_ne by done. split; [done|].
    unfold history. by rewrite Hv', lookup_delete_ne.
  - destruct (SetCompatibility nm mode now r) as [r' [err|]] eqn:Hset; cbn.
    { apply SetCompatibility_fails in Hset as ->. eexists. split; [|done].
      apply GetVersions_Ok. eauto. }
    apply SetCompatibility_keeps in Hset as (s0 & Hs0 & Hs' & Hv' & _).
    eexists. split; [|done]. apply GetVersions_Ok.
    unfold history. rewrite Hs', Hv'.
    destruct (decide (nm = name)) as [->|Hne].
    + rewrite lookup_insert_eq. simplify_eq. eexists. split; done.
    + rewrite lookup_insert_ne by done. eauto.
Qed.

End Kept.

(** X3: archived versions are immutable.  Along any calls that do not delete
    the name, from any registry, the records [GetVersions] returned before
    are the first records it returns afterwards, unchanged and in the same
    order: later registrations only append, and [SetCompatibility] changes
    no record. *)
Theorem GetVersions_only_grows {go : GoLib} (ops : list op) (name : string)
    (r : SchemaRegistry) (vs : list SchemaVersion) :
  keeps name ops →
  GetVersions name r = Ok vs →
  ∃ vs', GetVersions name (run ops r) = Ok vs' ∧ vs `prefix_of` vs'.
Proof.
  intros Hkeep. revert r vs.
  induction Hkeep as [|o ops Ho _ IH]; intros r vs Hvs; cbn.
  { by exists vs. }
  destruct (GetVersions_step name o r vs Ho Hvs) as (vs1 & Hvs1 & Hpre1).
  destruct (IH _ _ Hvs1) as (vs' & Hvs' & Hpre').
  exists vs'. split; [done|]. by etrans.
Qed.

Lemma GetVersions_only_grows_witness :
  ∃ vs',
    GetVersions "OrderEvent"
      (run (go := Sample.lib)
         [OpSetCompatibility "OrderEvent" CompatibilityNone 30%Z;
          OpRegister "OrderEvent" SchemaTypeJSON Sample.empty_object None 40%Z]
         (run (go := Sample.lib) Sample.orders NewSchemaRegistry)) = Ok vs'
    ∧ [ {| VVersion := 1%Z; VSchema := Sample.empty_object;
           VCreatedAt := 10%Z |};
        {| VVersion := 2%Z; VSchema := Sample.order_schema;
           VCreatedAt := 20%Z |} ] `prefix_of` vs'.
Proof.
  apply (GetVersions_only_grows (go := Sample.lib)).
  - repeat constructor; discriminate.
  - vm_compute. reflexivity.
Defined.

(** ** Writes and the reads that follow *)

Section WriteRead.
Context {go : GoLib}.

Lemma Register_description name ty schema opts now r r' :
  Register name ty schema opts now r = (r', None) →
  ∃ s', schemas r' !! name = Some s'
    ∧ Description s'
      = match opts with
        | Some o => OptDescription o
        | None => EmptyString
        end.
Proof.
  unfold Register. destruct (check_definition ty schema); [done|].
  destruct opts, (schemas r !! name); intros [= <-]; cbn;
    eexists; by rewrite lookup_insert_eq.
Qed.

Lemma reads_of_same_entry name r r' :
  schemas r' !! name = schemas r !! name →
  versions r' !! name = versions r !! name →
  Get name r' = Get name r
  ∧ GetVersions name r' = GetVersions name r
  ∧ (∀ v, GetVersion name v r' = GetVersion name v r)
  ∧ (∀ data, Validate name data r' = Validate name data r).
Proof.
  intros Hs Hv. unfold Validate, Get, GetVersions, GetVersion, history.
  by rewrite Hs, Hv.
Qed.

Lemma validateJSON_same_definition s1 s2 data :
  Schema s1 = Schema s2 → validateJSON s1 data = validateJSON s2 data.
Proof. unfold validateJSON. by intros ->. Qed.

End WriteRead.

(** X4: what was registered is what is read back.  After a successful
    [Register], [Get] returns a schema with the name, kind, definition and
    description of the call, and [GetVersion] at its version returns the
    definition with the time of the call; for every other name [Get],
    [GetVersions], [GetVersion] and [Validate] answer as before. *)
Theorem Register_then_read {go : GoLib} (name : string) (ty : SchemaType)
    (schema : bytes) (opts : option RegisterOptions) (now : Time)
    (r r' : SchemaRegistry) :
  Register name ty schema opts now r = (r', None) →
  (∃ s', Get name r' = Ok s'
     ∧ Name s' = name
     ∧ Type_ s' = ty
     ∧ Schema s' = schema
     ∧ Description s' = match opts with
                        | Some o => OptDescription o
                        | None => EmptyString
                        end
     ∧ GetVersion name (Version s') r'
       = Ok {| VVersion := Version s'; VSchema := schema; VCreatedAt := now |})
  ∧ (∀ other, other ≠ name →
       Get other r' = Get other r
       ∧ GetVersions other r' = GetVersions other r
       ∧ (∀ v, GetVersion other v r' = GetVersion other v r)
       ∧ (∀ data, Validate other data r' = Validate other data r)).
Proof.
  intros Hreg.
  destruct (Register_description _ _ _ _ _ _ _ Hreg) as (s1 & Hs1 & Hdesc).
  apply Register_succeeds in Hreg
    as (_ & _ & _ & Hso & Hvo & s' & Hs' & _ & Hname & Hty & Hschema & Hc & _).
  simplify_eq. split.
  - exists s'. rewrite Get_Ok. do 5 (split; [done|]).
    unfold GetVersion. by rewrite Hs', decide_True.
  - intros other Hne. apply reads_of_same_entry; auto.
Qed.

Lemma Register_then_read_witness :
  ∃ s', Get "PaymentEvent"
          (Register (go := Sample.lib) "PaymentEvent" SchemaTypeJSON
             Sample.order_schema
             (Some {| OptDescription := "payments";
                      OptCompatibility := EmptyString |}) 30%Z
             (run (go := Sample.lib) Sample.orders NewSchemaRegistry)).1
        = Ok s'
    ∧ Name s' = "PaymentEvent"
    ∧ Type_ s' = SchemaTypeJSON
    ∧ Schema s' = Sample.order_schema
    ∧ Description s' = "payments".
Proof.
  destruct (proj1 (Register_then_read (go := Sample.lib) "PaymentEvent"
                     SchemaTypeJSON Sample.order_schema
                     (Some {| OptDescription := "payments";
                              OptCompatibility := EmptyString |}) 30%Z
                     (run (go := Sample.lib) Sample.orders NewSchemaRegistry)
                     _ ltac:(vm_compute; reflexivity)))
    as (s' & Hget & Hname & Hty & Hschema & Hdesc & _).
  exists s'. repeat split; assumption.
Defined.

(** X5: deleting a name and registering it again starts its versions afresh
    and does not give back its id.  The schema installed has version 1, its
    history is empty, so [GetVersions] returns the one record, and its id is
    the value the counter had before the deletion. *)
Theorem Delete_then_Register_restarts {go : GoLib} (name : string)
    (ty : SchemaType) (schema : bytes) (opts : option RegisterOptions)
    (now : Time) (r r1 r2 : SchemaRegistry) :
  Delete name r = (r1, None) →
  Register name ty schema opts now r1 = (r2, None) →
  ∃ s, Get name r2 = Ok s
    ∧ Version s = 1%Z
    ∧ ID s = nextID r
    ∧ GetVersions name r2 = Ok [snapshot s].
Proof.
  intros (_ & Hs1 & Hv1 & Hn1)%Delete_succeeds Hreg.
  apply Register_succeeds in Hreg
    as (_ & _ & _ & _ & _ & s & Hs & Hid & _ & _ & _ & _ & _ & Hver & Hh).
  rewrite Hs1, lookup_delete_eq in Hver, Hh.
  unfold history in Hh at 2. rewrite Hv1, lookup_delete_eq in Hh. cbn in Hh.
  exists s. rewrite Get_Ok. split; [done|]. split; [done|].
  split; [congruence|]. unfold GetVersions. by rewrite Hs, Hh.
Qed.

Lemma Delete_then_Register_restarts_witness :
  ∃ s, Get "OrderEvent"
         (Register (go := Sample.lib) "OrderEvent" SchemaTypeJSON
            Sample.order_schema None 40%Z
            (Delete "OrderEvent"
               (run (go := Sample.lib) Sample.orders NewSchemaRegistry)).1).1
       = Ok s
    ∧ Version s = 1%Z
    ∧ ID s = 3%Z.
Proof.
  destruct (Delete_then_Register_restarts (go := Sample.lib) "OrderEvent"
              SchemaTypeJSON Sample.order_schema None 40%Z
              (run (go := Sample.lib) Sample.orders NewSchemaRegistry) _ _
              ltac:(vm_compute; reflexivity) ltac:(vm_compute; reflexivity))
    as (s & Hget & Hver & Hid & _).
  exists s. repeat split; assumption.
Defined.

(** X6: [SetCompatibility] changes the mode and the update time and nothing
    else.  On an unknown name it returns its error and the registry it was
    given.  On a registered name it succeeds; the current schema keeps id,
    name, version, kind, definition, description and creation time;
    [GetVersions] and [GetVersion] answer as before; the other names, the
    history map and the counter are untouched; and [Validate] answers as
    before for every name and payload: the mode plays no part in
    validation. *)
Theorem SetCompatibility_changes_the_mode_only {go : GoLib} (name : string)
    (mode : CompatibilityMode) (now : Time) (r : SchemaRegistry) :
  (schemas r !! name = None →
     SetCompatibility name mode now r = (r, Some "스키마를 찾을 수 없습니다"))
  ∧ (∀ s, Get name r = Ok s →
       ∃ r', SetCompatibility name mode now r = (r', None)
         ∧ Get name r'
           = Ok {| ID := ID s; Name := Name s; Version := Version s;
                   Type_ := Type_ s; Schema := Schema s;
                   Compatibility := mode; Description := Description s;
                   CreatedAt := CreatedAt s; UpdatedAt := now |}
         ∧ GetVersions name r' = GetVersions name r
         ∧ (∀ v, GetVersion name v r' = GetVersion name v r)
         ∧ (∀ other, other ≠ name → schemas r' !! other = schemas r !! other)
         ∧ versions r' = versions r
         ∧ nextID r' = nextID r
         ∧ (∀ any data, Validate any data r' = Validate any data r)).
Proof.
  split.
  - intros Hnone. unfold SetCompatibility. by rewrite Hnone.
  - intros s Hs%Get_Ok.
    destruct (SetCompatibility name mode now r) as [r' [err|]] eqn:Hset.
    { unfold SetCompatibility in Hset. by rewrite Hs in Hset. }
    apply SetCompatibility_keeps in Hset as (s0 & Hs0 & Hs' & Hv' & Hn' & _).
    simplify_eq. exists r'. split; [done|].
    unfold Get, GetVersions, GetVersion, history.
    rewrite Hs', Hv', Hs, lookup_insert_eq. cbn.
    do 3 (split; [done|]).
    split; [intros other Hne; by rewrite lookup_insert_ne|].
    do 2 (split; [done|]).
    intros any data. unfold Validate, Get. rewrite Hs'.
    destruct (decide (any = name)) as [->|Hne].
    + rewrite lookup_insert_eq, Hs. cbn.
      by rewrite (validateJSON_same_definition _ s).
    + by rewrite lookup_insert_ne.
Qed.

Lemma SetCompatibility_changes_the_mode_only_witness :
  (SetCompatibility "PaymentEvent" CompatibilityNone 30%Z
     (run (go := Sample.lib) Sample.orders NewSchemaRegistry)).2
    = Some "스키마를 찾을 수 없습니다"
  ∧ ∃ r', SetCompatibility "OrderEvent" CompatibilityNone 30%Z
            (run (go := Sample.lib) Sample.orders NewSchemaRegistry)
          = (r', None)
      ∧ Compatibility <$> schemas r' !! "OrderEvent" = Some CompatibilityNone.
Proof.
  split.
  - rewrite (proj1 (SetCompatibility_changes_the_mode_only (go := Sample.lib)
                      "PaymentEvent" CompatibilityNone 30%Z
                      (run (go := Sample.lib) Sample.orders NewSchemaRegistry))
               ltac:(vm_compute; reflexivity)).
    reflexivity.
  - destruct (proj2 (SetCompatibility_changes_the_mode_only (go := Sample.lib)
                       "OrderEvent" CompatibilityNone 30%Z
                       (run (go := Sample.lib) Sample.orders NewSchemaRegistry))
                _ ltac:(vm_compute; reflexivity))
      as (r' & Hset & Hget%Get_Ok & _).
    exists r'. split; [exact Hset|]. rewrite Hget. reflexivity.
Defined.

(** ** Well-formed registries *)

Section WellFormed.
Context {go : GoLib}.

Lemma store_wf_step o r : store_wf r → store_wf (step o r).1.
Proof.
  intros [Hname Hhist].
  destruct o as [nm ty schema opts now | nm | nm mode now]; cbn.
  - destruct (Register nm ty schema opts now r) as [r' [err|]] eqn:Hreg; cbn.
    { by apply Register_fails in Hreg as [-> _]. }
    apply Register_succeeds in Hreg
      as (_ & _ & _ & Hso & Hvo & s' & Hs' & _ & Hnm & _).
    split.
    + intros name s Hs. destruct (decide (name = nm)) as [->|Hne].
      * by simplify_eq.
      * rewrite Hso in Hs by done. eauto.
    + intros name Hv. destruct (decide (name = nm)) as [->|Hne]; [eauto|].
      rewrite Hso by done. rewrite Hvo in Hv by done. eauto.
  - destruct (Delete nm r) as [r' [err|]] eqn:Hdel; cbn.
    { by apply Delete_fails in Hdel as ->. }
    apply Delete_succeeds in Hdel as (_ & Hs' & Hv' & _).
    unfold store_wf. rewrite Hs', Hv'. split.
    + intros name s [_ Hs]%lookup_delete_Some. eauto.
    + intros name [v [Hne Hv]%lookup_delete_Some].
      rewrite lookup_delete_ne by done. eauto.
  - destruct (SetCompatibility nm mode now r) as [r' [err|]] eqn:Hset; cbn.
    { by apply SetCompatibility_fails in Hset as ->. }
    apply SetCompatibility_keeps in Hset as (s0 & Hs0 & Hs' & Hv' & _).
    unfold store_wf. rewrite Hs', Hv'. split.
    + intros name s. destruct (decide (name = nm)) as [->|Hne].
      * rewrite lookup_insert_eq. intros [= <-]. cbn. eauto.
      * rewrite lookup_insert_ne by done. eauto.
    + intros name Hv. destruct (decide (name = nm)) as [->|Hne].
      * rewrite lookup_insert_eq. eauto.
      * rewrite lookup_insert_ne by done. eauto.
Qed.

End WellFormed.

(** X7: every registry reached from [NewSchemaRegistry] is well formed: the
    schema filed under a name carries that name in its [Name] field, and a
    name has a history only while it is registered, so no record of a
    deleted name is left behind. *)
Theorem reachable_store_wf {go : GoLib} (ops : list op) :
  store_wf (run ops NewSchemaRegistry).
Proof.
  assert (store_wf NewSchemaRegistry) as Hnew.
  { split; cbn; intros name; rewrite lookup_empty; [done|by intros [? ?]]. }
  revert Hnew. generalize NewSchemaRegistry.
  induction ops as [|o ops IH]; intros r Hwf; cbn; [done|].
  by apply IH, store_wf_step.
Qed.

(** X8: [getSchemaVersion], which the publish handler puts in the
    [schema_version] header, returns the number of live registrations of the
    name: [0] exactly when the name is not registered, and the current
    version otherwise. *)
Theorem getSchemaVersion_counts_registrations {go : GoLib} (ops : list op)
    (name : string) :
  let r := run ops NewSchemaRegistry in
  let n := live_registrations name ops NewSchemaRegistry 0 in
  (Z.of_nat n < GoInt.max_int)%Z →
  getSchemaVersion name r = Z.of_nat n
  ∧ (getSchemaVersion name r = 0%Z ↔ schemas r !! name = None).
Proof.
  intros r n Hn.
  pose proof (versions_inv_run name ops NewSchemaRegistry 0
                (versions_inv_new name)) as Hinv.
  fold r n in Hinv. unfold getSchemaVersion. destruct n as [|k].
  - destruct Hinv as [Hnone _]. unfold Get. by rewrite Hnone.
  - destruct (versions_inv_reads name r k Hinv ltac:(lia))
      as (s & Hget & Hver & _).
    rewrite Hget. split; [done|].
    apply Get_Ok in Hget. rewrite Hget, Hver. split; [lia|done].
Qed.

Lemma getSchemaVersion_counts_registrations_witness :
  getSchemaVersion "OrderEvent"
    (run (go := Sample.lib) Sample.orders NewSchemaRegistry) = 2%Z.
Proof.
  apply (getSchemaVersion_counts_registrations (go := Sample.lib)
           Sample.orders "OrderEvent").
  vm_compute. reflexivity.
Defined.

(** ** Lookup by id *)

Section ById.
Context {rt : GoRuntime}.

Lemma elem_of_range_schemas m name s :
  (name, s) ∈ range_schemas m ↔ m !! name = Some s.
Proof. by rewrite range_schemas_perm, elem_of_map_to_list. Qed.

Lemma GetByID_Ok id r s :
  GetByID id r = Ok s → ID s = id ∧ ∃ name, schemas r !! name = Some s.
Proof.
  unfold GetByID.
  destruct (List.find _ (range_schemas (schemas r))) as [[name s']|] eqn:Hfind;
    [|done].
  intros [= <-]. apply List.find_some in Hfind as [Hin Hb]. cbn in *.
  apply bool_decide_eq_true in Hb. split; [done|]. exists name.
  by apply elem_of_range_schemas, list_elem_of_In.
Qed.

Lemma GetByID_Err id r e :
  GetByID id r = Err e →
  e = "스키마 ID를 찾을 수 없습니다: " +:+ pretty id
  ∧ ∀ name s, schemas r !! name = Some s → ID s ≠ id.
Proof.
  unfold GetByID.
  destruct (List.find _ (range_schemas (schemas r))) as [entry|] eqn:Hfind;
    [done|].
  intros [= <-]. split; [done|]. intros name s Hs Hid.
  apply elem_of_range_schemas, list_elem_of_In in Hs.
  pose proof (List.find_none _ _ Hfind _ Hs) as Hb. cbn in Hb.
  by rewrite bool_decide_true in Hb.
Qed.

End ById.

(** X9: [GetByID] searches the current schemas and nothing else.  A schema
    it returns has the id asked for and is the current schema of some name;
    it succeeds exactly when some current schema has the id; and when none
    has, it returns the id-not-found error with the id in decimal. *)
Theorem GetByID_searches_current_schemas {rt : GoRuntime} (id : Z)
    (r : SchemaRegistry) :
  (∀ s, GetByID id r = Ok s →
     ID s = id ∧ ∃ name, schemas r !! name = Some s)
  ∧ ((∃ s, GetByID id r = Ok s) ↔
     ∃ name s, schemas r !! name = Some s ∧ ID s = id)
  ∧ ((∀ name s, schemas r !! name = Some s → ID s ≠ id) →
       GetByID id r = Err ("스키마 ID를 찾을 수 없습니다: " +:+ pretty id)).
Proof.
  split; [by apply GetByID_Ok|]. split; [split|].
  - intros [s [Hid [name Hs]]%GetByID_Ok]. eauto.
  - intros (name & s & Hs & Hid).
    destruct (GetByID id r) as [s'|e] eqn:Hget; [eauto|].
    apply GetByID_Err in Hget as [_ Hnone]. by destruct (Hnone name s).
  - intros Hnone. destruct (GetByID id r) as [s|e] eqn:Hget.
    + apply GetByID_Ok in Hget as [Hid [name Hs]]. by destruct (Hnone name s).
    + by apply GetByID_Err in Hget as [-> _].
Qed.

Lemma GetByID_searches_current_schemas_witness :
  ∃ s, GetByID (rt := Demo.runtime) 2
         (run (go := Sample.lib) Sample.orders NewSchemaRegistry) = Ok s.
Proof.
  apply (proj2 (proj1 (proj2
           (GetByID_searches_current_schemas (rt := Demo.runtime) 2
              (run (go := Sample.lib) Sample.orders NewSchemaRegistry))))).
  exists "OrderEvent". eexists. split; vm_compute; reflexivity.
Defined.

(** X10: in a registry reached from [NewSchemaRegistry] (fewer than
    [2^63 - 1] ids handed out) [GetByID] undoes [Get]: the id of the current
    schema of a name leads back to that schema, whatever the order of the
    walk.  After the name is registered again its former id is no longer
    found: a superseded version cannot be reached by id. *)
Theorem GetByID_of_current_id {go : GoLib} {rt : GoRuntime} (ops : list op)
    (name : string) (s : SchemaInfo) :
  let r := run ops NewSchemaRegistry in
  (Z.of_nat (length (issued ops NewSchemaRegistry)) < GoInt.max_int)%Z →
  Get name r = Ok s →
  GetByID (ID s) r = Ok s
  ∧ (∀ ty schema opts now r',
       Register name ty schema opts now r = (r', None) →
       GetByID (ID s) r'
         = Err ("스키마 ID를 찾을 수 없습니다: " +:+ pretty (ID s))).
Proof.
  intros r Hlen Hs%Get_Ok.
  destruct (ids_inv_run ops NewSchemaRegistry 0 ids_inv_new Hlen)
    as [(Hnext & Hrange & Hinj) _].
  fold r in Hnext, Hrange, Hinj. cbn in Hnext, Hrange. split.
  - destruct (GetByID (ID s) r) as [s'|e] eqn:Hget.
    + apply GetByID_Ok in Hget as [Hid [name' Hs']].
      pose proof (Hinj _ _ _ _ Hs' Hs Hid) as ->. congruence.
    + apply GetByID_Err in Hget as [_ Hnone]. by destruct (Hnone name s).
  - intros ty schema opts now r' Hreg.
    apply Register_succeeds in Hreg
      as (_ & _ & _ & Hso & _ & s' & Hs' & Hid' & _).
    apply GetByID_searches_current_schemas.
    intros name1 s1 Hs1 Hid1. destruct (decide (name1 = name)) as [->|Hne].
    + simplify_eq. apply Hrange in Hs. lia.
    + rewrite Hso in Hs1 by done.
      by pose proof (Hinj _ _ _ _ Hs1 Hs Hid1).
Qed.

Lemma GetByID_of_current_id_witness :
  ∃ s, Get "OrderEvent"
         (run (go := Sample.lib) Sample.orders NewSchemaRegistry) = Ok s
    ∧ GetByID (rt := Demo.runtime) 2
        (run (go := Sample.lib) Sample.orders NewSchemaRegistry) = Ok s.
Proof.
  eexists. split; [vm_compute; reflexivity|].
  refine (proj1 (GetByID_of_current_id (go := Sample.lib) (rt := Demo.runtime)
                   Sample.orders "OrderEvent" _
                   ltac:(vm_compute; reflexivity)
                   ltac:(vm_compute; reflexivity))).
Defined.

(** ** Listing and counting *)

Section Listing.
Context {rt : GoRuntime}.

Lemma id_less_strict_weak_order :
  strict_weak_order (λ a b : SchemaInfo, bool_decide (ID a < ID b)%Z).
Proof.
  split; [|split].
  - intros x. apply bool_decide_eq_false. lia.
  - intros x y z Hxy%bool_decide_eq_true Hyz%bool_decide_eq_true.
    apply bool_decide_eq_true. lia.
  - intros x y z Hxy%bool_decide_eq_false Hyz%bool_decide_eq_false.
    apply bool_decide_eq_false. lia.
Qed.

Lemma StronglySorted_weaken {A : Type} (R1 R2 : relation A) (l : list A) :
  (∀ x y, x ∈ l → y ∈ l → R1 x y → R2 x y) →
  StronglySorted R1 l → StronglySorted R2 l.
Proof.
  intros Himp Hsorted. induction Hsorted as [|x l Hl IH Hx]; constructor.
  - apply IH. intros a b Ha Hb. apply Himp; by right.
  - apply Forall_forall. intros y Hy. apply Himp; [by left | by right|].
    rewrite Forall_forall in Hx. by apply Hx.
Qed.

Lemma StronglySorted_strict (l : list SchemaInfo) :
  StronglySorted (λ a b, (ID a ≤ ID b)%Z) l →
  NoDup (ID <$> l) →
  StronglySorted (λ a b, (ID a < ID b)%Z) l.
Proof.
  induction 1 as [|x l Hl IH Hx]; intros Hnd; constructor;
    cbn in Hnd; apply NoDup_cons in Hnd as [Hnotin Hnd]; [by apply IH|].
  rewrite Forall_forall in Hx. apply Forall_forall. intros y Hy.
  pose proof (Hx y Hy) as Hle.
  destruct (decide (ID x = ID y)) as [Heq|Hne]; [|lia].
  exfalso. apply Hnotin. rewrite Heq. apply list_elem_of_fmap. eauto.
Qed.

Lemma List_Permutation r : List r ≡ₚ (map_to_list (schemas r)).*2.
Proof. unfold List. by rewrite sort_slice_perm, range_schemas_perm. Qed.

Lemma elem_of_List r s : s ∈ List r ↔ ∃ name, schemas r !! name = Some s.
Proof.
  rewrite List_Permutation, list_elem_of_fmap. split.
  - intros ([name s'] & -> & Hin%elem_of_map_to_list). eauto.
  - intros [name Hs]. exists (name, s). by rewrite elem_of_map_to_list.
Qed.

Lemma List_sorted r : StronglySorted (λ a b, (ID a ≤ ID b)%Z) (List r).
Proof.
  unfold List.
  eapply StronglySorted_weaken;
    [|apply sort_slice_sorted, id_less_strict_weak_order].
  intros x y _ _ Hxy%bool_decide_eq_false. lia.
Qed.

End Listing.

(** X11: [List] returns the current schemas, each once, in ascending order
    of their ids, and as many as [Count] counts: a schema is listed if and
    only if it is the current schema of some name. *)
Theorem List_lists_current_schemas {rt : GoRuntime} (r : SchemaRegistry) :
  List r ≡ₚ (map_to_list (schemas r)).*2
  ∧ (∀ s, s ∈ List r ↔ ∃ name, schemas r !! name = Some s)
  ∧ StronglySorted (λ a b, (ID a ≤ ID b)%Z) (List r)
  ∧ Z.of_nat (length (List r)) = Count r.
Proof.
  split; [apply List_Permutation|]. split; [apply elem_of_List|].
  split; [apply List_sorted|].
  unfold Count. by rewrite List_Permutation, length_fmap, length_map_to_list.
Qed.

(** X12: in a registry reached from [NewSchemaRegistry] (fewer than
    [2^63 - 1] ids handed out) the ids of the list are strictly ascending,
    and the list is the same whatever the order of the walk over the map and
    whatever [sort.Slice] does with equal elements: two runtimes give the
    same list. *)
Theorem List_is_determined {go : GoLib} (rt1 rt2 : GoRuntime) (ops : list op) :
  let r := run ops NewSchemaRegistry in
  (Z.of_nat (length (issued ops NewSchemaRegistry)) < GoInt.max_int)%Z →
  StronglySorted (λ a b, (ID a < ID b)%Z) (List (rt := rt1) r)
  ∧ List (rt := rt1) r = List (rt := rt2) r.
Proof.
  intros r Hlen.
  destruct (ids_inv_run ops NewSchemaRegistry 0 ids_inv_new Hlen)
    as [(_ & _ & Hinj) _].
  fold r in Hinj.
  assert (∀ rt (x y : SchemaInfo),
            x ∈ List (rt := rt) r → y ∈ List (rt := rt2) r →
            ID x = ID y → x = y) as Hsame.
  { intros rt x y [nx Hx]%elem_of_List [ny Hy]%elem_of_List Hid.
    pose proof (Hinj _ _ _ _ Hx Hy Hid) as ->. congruence. }
  split.
  - apply StronglySorted_strict; [apply List_sorted|].
    rewrite List_Permutation, <- list_fmap_compose.
    apply NoDup_fmap_2_strong; [|apply NoDup_map_to_list].
    intros [n1 s1] [n2 s2] H1%elem_of_map_to_list H2%elem_of_map_to_list.
    cbn. intros Hid. pose proof (Hinj _ _ _ _ H1 H2 Hid) as ->. congruence.
  - apply (StronglySorted_unique_strong (λ a b, (ID a ≤ ID b)%Z)).
    + intros x y Hx Hy Hxy Hyx. apply (Hsame rt1); [done..|lia].
    + apply List_sorted.
    + apply List_sorted.
    + by rewrite !List_Permutation.
Qed.

Lemma List_is_determined_witness :
  List (rt := Demo.runtime)
    (run (go := Sample.lib) Demo.three NewSchemaRegistry)
  = List (rt := Demo.runtime_rev)
      (run (go := Sample.lib) Demo.three NewSchemaRegistry).
Proof.
  apply (List_is_determined (go := Sample.lib) Demo.runtime Demo.runtime_rev
           Demo.three).
  vm_compute. reflexivity.
Defined.

Section Counting.
Context {go : GoLib}.

Lemma Register_schemas name ty schema opts now r r' :
  Register name ty schema opts now r = (r', None) →
  ∃ s', schemas r' = <[name := s']> (schemas r).
Proof.
  intros (_ & _ & _ & Hso & _ & s' & Hs' & _)%Register_succeeds.
  exists s'. apply map_eq. intros other.
  destruct (decide (other = name)) as [->|Hne].
  - by rewrite lookup_insert_eq.
  - rewrite lookup_insert_ne by done. auto.
Qed.

End Counting.

(** X13: [Count] follows the set of registered names.  It is [0] for
    [NewSchemaRegistry]; a successful [Register] adds one when the name was
    not registered and nothing when it was; a successful [Delete] takes one
    away; [SetCompatibility] and every call that returns an error leave it
    as it is. *)
Theorem Count_follows_the_names {go : GoLib} (r : SchemaRegistry) :
  Count NewSchemaRegistry = 0%Z
  ∧ (∀ name ty schema opts now r',
       Register name ty schema opts now r = (r', None) →
       Count r' = match schemas r !! name with
                  | Some _ => Count r
                  | None => (Count r + 1)%Z
                  end)
  ∧ (∀ name r', Delete name r = (r', None) → Count r' = (Count r - 1)%Z)
  ∧ (∀ name mode now, Count (SetCompatibility name mode now r).1 = Count r)
  ∧ (∀ o err, (step o r).2 = Some err → Count (step o r).1 = Count r).
Proof.
  unfold Count. split; [done|]. split; [|split; [|split]].
  - intros name ty schema opts now r' [s' ->]%Register_schemas.
    destruct (schemas r !! name) as [s|] eqn:Hs.
    + by rewrite map_size_insert_Some.
    + rewrite map_size_insert_None by done. lia.
  - intros name r' ([s Hs] & -> & _)%Delete_succeeds.
    rewrite map_size_delete_Some by done.
    assert (size (schemas r) ≠ 0); [|lia].
    intros Hz%map_size_empty_inv. by rewrite Hz, lookup_empty in Hs.
  - intros name mode now.
    destruct (SetCompatibility name mode now r) as [r' [err|]] eqn:Hset; cbn.
    + by apply SetCompatibility_fails in Hset as ->.
    + apply SetCompatibility_keeps in Hset as (s & Hs & -> & _).
      by rewrite map_size_insert_Some.
  - intros o err Herr.
    destruct o as [nm ty schema opts now | nm | nm mode now]; cbn in *.
    + destruct (Register nm ty schema opts now r) as [r' e] eqn:Hreg.
      cbn in Herr. subst e. by apply Register_fails in Hreg as [-> _].
    + destruct (Delete nm r) as [r' e] eqn:Hdel.
      cbn in Herr. subst e. by apply Delete_fails in Hdel as ->.
    + destruct (SetCompatibility nm mode now r) as [r' e] eqn:Hset.
      cbn in Herr. subst e. by apply SetCompatibility_fails in Hset as ->.
Qed.

Lemma Count_follows_the_names_witness :
  Count (Register (go := Sample.lib) "PaymentEvent" SchemaTypeJSON
           Sample.order_schema None 30%Z
           (run (go := Sample.lib) Sample.orders NewSchemaRegistry)).1 = 2%Z
  ∧ Count (Delete "OrderEvent"
             (run (go := Sample.lib) Sample.orders NewSchemaRegistry)).1 = 0%Z.
Proof.
  split.
  - etrans.
    + apply (proj1 (proj2 (Count_follows_the_names (go := Sample.lib)
                             (run (go := Sample.lib) Sample.orders
                                NewSchemaRegistry)))
               "PaymentEvent" SchemaTypeJSON Sample.order_schema None 30%Z).
      vm_compute. reflexivity.
    + vm_compute. reflexivity.
  - etrans.
    + apply (proj1 (proj2 (proj2 (Count_follows_the_names (go := Sample.lib)
                                    (run (go := Sample.lib) Sample.orders
                                       NewSchemaRegistry))))
               "OrderEvent").
      vm_compute. reflexivity.
    + vm_compute. reflexivity.
Defined.

(** ** Statistics *)

Section Statistics.
Context {rt : GoRuntime}.

Lemma wrap_add_r (a b : Z) : GoInt.wrap (a + GoInt.wrap b) = GoInt.wrap (a + b).
Proof. by rewrite Z.add_comm, wrap_add_l, Z.add_comm. Qed.

Lemma count_type_cons t entry l :
  count_type t (entry :: l)
  = (if decide (Type_ entry.2 = t) then 1 else 0) + count_type t l.
Proof. unfold count_type. rewrite filter_cons. by case_decide. Qed.

Lemma stats_fold r l (acc : gmap string Z * Z) (c0 : string → nat) (v0 : nat) :
  (∀ t, acc.1 !! t = if decide (c0 t = 0) then None
                     else Some (GoInt.wrap (Z.of_nat (c0 t)))) →
  acc.2 = GoInt.wrap (Z.of_nat v0) →
  (∀ t, (foldl (stats_visit r) acc l).1 !! t
        = if decide (c0 t + count_type t l = 0) then None
          else Some (GoInt.wrap (Z.of_nat (c0 t + count_type t l))))
  ∧ (foldl (stats_visit r) acc l).2
    = GoInt.wrap (Z.of_nat (v0 + count_versions r l)).
Proof.
  revert acc c0 v0.
  induction l as [|entry l IH]; intros acc c0 v0 Htc Htv; cbn [foldl].
  { split.
    - intros t. unfold count_type. cbn. by rewrite Nat.add_0_r.
    - unfold count_versions. cbn. by rewrite Nat.add_0_r. }
  destruct (IH (stats_visit r acc entry)
              (λ t, c0 t + if decide (Type_ entry.2 = t) then 1 else 0)
              (v0 + S (length (history r entry.1)))) as [IHtc IHtv].
  - intros t. unfold stats_visit; cbn.
    destruct (decide (Type_ entry.2 = t)) as [<-|Hne].
    + rewrite lookup_insert_eq, decide_False by lia.
      rewrite Htc. f_equal. unfold GoInt.add.
      case_decide as Hz; cbn.
      * rewrite Hz. done.
      * rewrite wrap_add_l. f_equal. lia.
    + rewrite lookup_insert_ne by done. rewrite Htc, Nat.add_0_r. done.
  - unfold stats_visit; cbn. rewrite Htv. unfold GoInt.add.
    rewrite wrap_add_r, wrap_add_l. f_equal. lia.
  - split.
    + intros t. rewrite IHtc, count_type_cons.
      by rewrite (assoc_L Nat.add).
    + rewrite IHtv. f_equal. unfold count_versions; cbn. lia.
Qed.

End Statistics.

(** X14: [GetStats] does not depend on the order of its walk.
    [total_schemas] is [Count]; [total_versions] is the number of version
    records over all registered names, each name contributing as many as
    [GetVersions] returns for it; [by_type] maps a kind to the number of
    current schemas of that kind and has no entry for a kind without
    schemas.  (The sums are [int]s and wrap around.) *)
Theorem GetStats_totals {rt : GoRuntime} (r : SchemaRegistry) :
  total_schemas (GetStats r) = Count r
  ∧ total_versions (GetStats r)
    = GoInt.wrap (Z.of_nat (count_versions r (map_to_list (schemas r))))
  ∧ (∀ name s, schemas r !! name = Some s →
       ∃ vs, GetVersions name r = Ok vs
         ∧ length vs = S (length (history r name)))
  ∧ (∀ t, by_type (GetStats r) !! t
          = if decide (count_type t (map_to_list (schemas r)) = 0) then None
            else Some (GoInt.wrap
                         (Z.of_nat (count_type t (map_to_list (schemas r)))))).
Proof.
  split; [done|].
  destruct (stats_fold r (range_schemas (schemas r)) (∅, 0%Z) (λ _, 0) 0)
    as [Htc Htv]; [done..|].
  split; [|split].
  - unfold GetStats; cbn. rewrite Htv. cbn. do 2 f_equal.
    apply sum_list_with_Permutation_proper, range_schemas_perm.
  - intros name s Hs. unfold GetVersions. rewrite Hs. eexists. split; [done|].
    rewrite length_app. cbn. lia.
  - intros t. unfold GetStats; cbn. rewrite Htc. cbn.
    assert (count_type t (range_schemas (schemas r))
            = count_type t (map_to_list (schemas r))) as ->; [|done].
    unfold count_type. apply Permutation_length.
    apply filter_Permutation, range_schemas_perm.
Qed.

Lemma GetStats_totals_witness :
  ∃ vs,
    GetVersions "OrderEvent"
      (run (go := Sample.lib) Demo.three NewSchemaRegistry) = Ok vs
    ∧ length vs
      = S (length (history (run (go := Sample.lib) Demo.three
                             NewSchemaRegistry) "OrderEvent")).
Proof.
  eapply (proj1 (proj2 (proj2 (GetStats_totals (rt := Demo.runtime)
                                 (run (go := Sample.lib) Demo.three
                                    NewSchemaRegistry))))).
  vm_compute. reflexivity.
Defined.

(** ** The publish history *)

Section PublishHistory.

Lemma take_app_take {A : Type} (n : nat) (l k : list A) :
  take n (l ++ take n k) = take n (l ++ k).
Proof. rewrite !take_app, take_take. do 2 f_equal. lia. Qed.

Lemma publish_history c h :
  publishHistory (publish c h).1 = take 100 ((publish c h).2 :: publishHistory h)
  ∧ publishID (publish c h).1 = GoInt.add (publishID h) 1
  ∧ PubID (publish c h).2 = GoInt.add (publishID h) 1.
Proof.
  unfold publish, addPublishRecord. cbn [fst snd publishHistory publishID PubID].
  split; [|done]. case_decide as Hlen; [done|].
  rewrite take_ge; [done|]. cbn in *. lia.
Qed.

Lemma publish_all_history calls h :
  length (publishHistory h) ≤ 100 →
  publishHistory (publish_all calls h)
  = take 100 (reverse (published calls h) ++ publishHistory h).
Proof.
  revert h. induction calls as [|c calls IH]; intros h Hlen;
    cbn [publish_all published].
  { cbn. by rewrite take_ge. }
  destruct (publish_history c h) as [Hhist _].
  rewrite IH by (rewrite Hhist, length_take; lia).
  rewrite Hhist, take_app_take, reverse_cons, <- (assoc_L (++)). done.
Qed.

Lemma length_published calls h : length (published calls h) = length calls.
Proof.
  revert h. induction calls as [|c calls IH]; intros h; cbn; [done|].
  by rewrite IH.
Qed.

Lemma published_ids calls h :
  (0 ≤ publishID h)%Z →
  (publishID h + Z.of_nat (length calls) < GoInt.max_int)%Z →
  PubID <$> published calls h
    = seqZ (publishID h + 1) (Z.of_nat (length calls))
  ∧ publishID (publish_all calls h)
    = (publishID h + Z.of_nat (length calls))%Z.
Proof.
  revert h. induction calls as [|c calls IH]; intros h Hpos Hlen;
    cbn [published publish_all length].
  { cbn. split; [done|lia]. }
  destruct (publish_history c h) as (_ & Hid & Hrec).
  rewrite add_succ in Hid, Hrec by (cbn in Hlen; lia).
  destruct (IH (publish c h).1) as [IHids IHid].
  { lia. } { cbn in Hlen. lia. }
  split.
  - rewrite fmap_cons, IHids, Hrec, Hid.
    rewrite (seqZ_cons (publishID h + 1)) by lia.
    f_equal. f_equal; lia.
  - rewrite IHid, Hid. lia.
Qed.

End PublishHistory.

(** X15: the publish history holds the latest hundred records, newest
    first.  After any calls of [addPublishRecord] from the empty history,
    [publishHistory] is the records the calls returned, in reverse order of
    the calls and cut after the hundredth; so it has [min n 100] entries
    after [n] calls, never more than a hundred, and its first entry is the
    record the last call returned. *)
Theorem publishHistory_latest_hundred (calls : list PublishCall) :
  let h := publish_all calls NewPublishLog in
  publishHistory h = take 100 (reverse (published calls NewPublishLog))
  ∧ length (publishHistory h) = length calls `min` 100
  ∧ length (publishHistory h) ≤ 100
  ∧ head (publishHistory h) = last (published calls NewPublishLog).
Proof.
  intros h.
  assert (publishHistory h
          = take 100 (reverse (published calls NewPublishLog))) as Heq.
  { unfold h. rewrite publish_all_history by (cbn; lia).
    cbn. by rewrite app_nil_r. }
  split; [done|]. rewrite Heq, length_take, length_reverse, length_published.
  split; [lia|]. split; [lia|].
  rewrite <- head_reverse.
  by destruct (reverse (published calls NewPublishLog)).
Qed.

(** X16: publish ids count the calls.  While fewer than [2^63 - 1] records
    have been added, the [n] calls so far returned the ids [1, 2, ..., n] in
    this order, the counter stands at [n], and the entry at position [i] of
    the history has the id [n - i]. *)
Theorem publish_ids_count_the_calls (calls : list PublishCall) :
  let h := publish_all calls NewPublishLog in
  let n := Z.of_nat (length calls) in
  (n < GoInt.max_int)%Z →
  PubID <$> published calls NewPublishLog = seqZ 1 n
  ∧ publishID h = n
  ∧ (∀ i rec, publishHistory h !! i = Some rec →
       PubID rec = (n - Z.of_nat i)%Z).
Proof.
  intros h n Hn.
  destruct (published_ids calls NewPublishLog) as [Hids Hid]; [done..|].
  cbn in Hids, Hid. fold n in Hids. fold h in Hid.
  split; [done|]. split; [done|].
  intros i rec Hrec.
  destruct (publishHistory_latest_hundred calls) as [Heq _]. fold h in Heq.
  rewrite Heq in Hrec. apply lookup_take_Some in Hrec as [Hrec _].
  assert (i < length (published calls NewPublishLog)) as Hi.
  { apply lookup_lt_Some in Hrec. by rewrite length_reverse in Hrec. }
  rewrite reverse_lookup in Hrec by done.
  assert ((PubID <$> published calls NewPublishLog)
            !! (length (published calls NewPublishLog) - S i)
          = Some (PubID rec)) as Hlook.
  { by rewrite list_lookup_fmap, Hrec. }
  rewrite Hids in Hlook. apply lookup_seqZ in Hlook as [-> _].
  rewrite length_published in *. unfold n. lia.
Qed.

Lemma publish_ids_count_the_calls_witness :
  PubID <$> publishHistory
              (publish_all [Demo.call "OrderEvent" true 10%Z;
                            Demo.call "OrderEvent" false 20%Z;
                            Demo.call "Trace" true 30%Z] NewPublishLog)
  = [3; 2; 1]%Z
  ∧ publishID (publish_all [Demo.call "OrderEvent" true 10%Z;
                            Demo.call "OrderEvent" false 20%Z;
                            Demo.call "Trace" true 30%Z] NewPublishLog) = 3%Z.
Proof.
  split; [vm_compute; reflexivity|].
  apply (publish_ids_count_the_calls [Demo.call "OrderEvent" true 10%Z;
                                      Demo.call "OrderEvent" false 20%Z;
                                      Demo.call "Trace" true 30%Z]).
  vm_compute. reflexivity.
Defined.

(** ** Truncation for the shell's columns *)

Section Truncate.

Lemma length_append (s1 s2 : string) :
  String.length (s1 +:+ s2) = String.length s1 + String.length s2.
Proof.
  induction s1 as [|c s1 IH]; [done|].
  cbn [String.length Nat.add]. rewrite <- IH. reflexivity.
Qed.

Lemma length_substring_0 (k : nat) (s : string) :
  String.length (String.substring 0 k s) = k `min` String.length s.
Proof.
  revert k. induction s as [|c s IH]; intros [|k]; cbn; try done.
  by rewrite IH.
Qed.

Lemma truncate_short s max :
  (Z.of_nat (String.length s) ≤ max)%Z → truncate s max = Return s.
Proof. intros Hle. unfold truncate. by rewrite decide_True. Qed.

Lemma truncate_long s max :
  (3 ≤ max ≤ GoInt.max_int)%Z →
  (max < Z.of_nat (String.length s))%Z →
  truncate s max
    = Return (String.substring 0 (Z.to_nat (max - 3)) s +:+ "...").
Proof.
  intros Hmax Hlong. unfold truncate. rewrite decide_False by lia.
  rewrite wrap_in_range
    by (unfold GoInt.in_range, GoInt.min_int, GoInt.max_int in *; lia).
  by rewrite decide_True by lia.
Qed.

End Truncate.

(** X17: for a width of at least three, [truncate] returns a string no
    longer than the width: the argument itself when it fits, and otherwise
    its first [max - 3] bytes followed by three dots, which is exactly [max]
    bytes long.  Truncating the result again changes nothing.  (The shell
    calls it with the widths 19, 47 and 60.) *)
Theorem truncate_fits_the_width (s : string) (max : Z) :
  (3 ≤ max ≤ GoInt.max_int)%Z →
  ∃ t, truncate s max = Return t
    ∧ (Z.of_nat (String.length t) ≤ max)%Z
    ∧ ((Z.of_nat (String.length s) ≤ max)%Z → t = s)
    ∧ ((max < Z.of_nat (String.length s))%Z →
         t = String.substring 0 (Z.to_nat (max - 3)) s +:+ "..."
         ∧ Z.of_nat (String.length t) = max)
    ∧ truncate t max = Return t.
Proof.
  intros Hmax.
  destruct (decide (Z.of_nat (String.length s) ≤ max)%Z) as [Hle|Hgt].
  - exists s. rewrite truncate_short by done.
    do 3 (split; [done|]). split; [lia|done].
  - assert (Z.of_nat
              (String.length
                 (String.substring 0 (Z.to_nat (max - 3)) s +:+ "..."))
            = max) as Hlen.
    { rewrite length_append, length_substring_0. cbn. lia. }
    eexists. rewrite truncate_long by lia.
    split; [done|]. split; [lia|]. split; [lia|]. split; [done|].
    apply truncate_short. lia.
Qed.

Lemma truncate_fits_the_width_witness :
  ∃ t, truncate "NotificationEventSchema" 19 = Return t
    ∧ t = "NotificationEven..."
    ∧ truncate t 19 = Return t.
Proof.
  destruct (truncate_fits_the_width "NotificationEventSchema" 19
              ltac:(vm_compute; split; discriminate))
    as (t & Ht & _ & _ & Hlong & Hagain).
  exists t. split; [exact Ht|]. split; [|exact Hagain].
  exact (proj1 (Hlong ltac:(vm_compute; reflexivity))).
Defined.

(** X18: [truncate] panics exactly when the width is below three and the
    string is longer than the width: the slice [s[:max-3]] then has a
    negative bound.  In particular a negative width panics on every string,
    the empty one included.  (Widths within three of the smallest [int] are
    left out: there [max - 3] wraps around.) *)
Theorem truncate_panics_below_three (s : string) (max : Z) :
  (GoInt.min_int + 3 ≤ max ≤ GoInt.max_int)%Z →
  (truncate s max = Panic ↔
   (max < 3)%Z ∧ (max < Z.of_nat (String.length s))%Z)
  ∧ ((max < 0)%Z → truncate s max = Panic).
Proof.
  intros Hmax.
  assert (truncate s max = Panic ↔
          (max < 3)%Z ∧ (max < Z.of_nat (String.length s))%Z) as Hiff.
  { unfold truncate. case_decide as Hle; [split; [done|lia]|].
    rewrite wrap_in_range
      by (unfold GoInt.in_range, GoInt.min_int, GoInt.max_int in *; lia).
    case_decide as Hhigh; split; try done; lia. }
  split; [done|]. intros Hneg. apply Hiff. lia.
Qed.

Lemma truncate_panics_below_three_witness :
  truncate "Log" 2 = Panic ∧ truncate EmptyString (-1) = Panic.
Proof.
  split.
  - apply (proj1 (truncate_panics_below_three "Log" 2
                    ltac:(vm_compute; split; discriminate))).
    vm_compute. split; reflexivity.
  - apply (proj2 (truncate_panics_below_three EmptyString (-1)
                    ltac:(vm_compute; split; discriminate))).
    reflexivity.
Defined.

(** ** Registration, deletion and the reads that follow *)

(** X19: a superseded definition stays readable at its version.  In a
    registry reached from [NewSchemaRegistry], after a successful
    re-registration of a name, [GetVersion] at the former version returns the
    former definition with its creation time, and [GetVersion] at the next
    number returns the definition just registered with the time of the
    call. *)
Theorem superseded_version_stays_readable {go : GoLib} (ops : list op)
    (name : string) (ty : SchemaType) (schema : bytes)
    (opts : option RegisterOptions) (now : Time) (s : SchemaInfo)
    (r' : SchemaRegistry) :
  let r := run ops NewSchemaRegistry in
  let n := live_registrations name ops NewSchemaRegistry 0 in
  (Z.of_nat n < GoInt.max_int)%Z →
  Get name r = Ok s →
  Register name ty schema opts now r = (r', None) →
  GetVersion name (Version s) r' = Ok (snapshot s)
  ∧ GetVersion name (Version s + 1) r'
    = Ok {| VVersion := (Version s + 1)%Z; VSchema := schema;
            VCreatedAt := now |}.
Proof.
  intros r n Hn Hs%Get_Ok Hreg.
  pose proof (versions_inv_run name ops NewSchemaRegistry 0
                (versions_inv_new name)) as Hinv.
  fold r n in Hinv.
  pose proof (versions_inv_step name (OpRegister name ty schema opts now)
                r n Hinv) as Hinv'.
  cbn in Hinv'. rewrite Hreg in Hinv'. cbn in Hinv'.
  rewrite decide_True in Hinv' by done.
  destruct n as [|k]; [destruct Hinv as [Hnone _]; congruence|].
  destruct (versions_inv_reads name r k Hinv ltac:(lia))
    as (s0 & Hget0%Get_Ok & Hver & _ & Hlen & _).
  simplify_eq.
  apply Register_succeeds in Hreg
    as (_ & _ & _ & _ & _ & s' & Hs' & _ & _ & _ & Hschema & Hc & _ & Hv' & Hh).
  rewrite Hs in Hv', Hh. rewrite add_succ in Hv' by lia.
  rewrite length_app in Hlen. cbn in Hlen. split.
  - destruct (GetVersion_at name r' (S k) s' (Version s) Hinv' ltac:(lia) Hs'
                ltac:(lia)) as (rec & -> & _ & Hrec).
    rewrite Hh, <- (assoc_L (++)), lookup_app_r in Hrec by lia.
    replace (Z.to_nat (Version s - 1) - length (history r name)) with 0
      in Hrec by lia.
    cbn in Hrec. congruence.
  - unfold GetVersion. rewrite Hs', decide_True by done.
    unfold snapshot. by rewrite Hv', Hschema, Hc.
Qed.

Lemma superseded_version_stays_readable_witness :
  GetVersion "OrderEvent" 2
    (Register (go := Sample.lib) "OrderEvent" SchemaTypeJSON
       Sample.empty_object None 30%Z
       (run (go := Sample.lib) Sample.orders NewSchemaRegistry)).1
  = Ok {| VVersion := 2%Z; VSchema := Sample.order_schema;
          VCreatedAt := 20%Z |}.
Proof.
  refine (proj1 (superseded_version_stays_readable (go := Sample.lib)
                   Sample.orders "OrderEvent" SchemaTypeJSON
                   Sample.empty_object None 30%Z
                   {| ID := 2%Z; Name := "OrderEvent"; Version := 2%Z;
                      Type_ := SchemaTypeJSON;
                      Schema := Sample.order_schema;
                      Compatibility := CompatibilityFull;
                      Description := "orders";
                      CreatedAt := 20%Z; UpdatedAt := 20%Z |} _
                   ltac:(vm_compute; reflexivity)
                   ltac:(vm_compute; reflexivity)
                   ltac:(vm_compute; reflexivity))).
Defined.

(** X20: [Validate] answers from the definition registered last.  After a
    successful [Register] of kind JSON, [Validate] of the name is
    [validateJSON] on the definition of that call, whatever was registered
    before; after a successful [Delete] it is the not-found result. *)
Theorem Validate_uses_the_latest_definition {go : GoLib} (name : string)
    (data : bytes) (r r' : SchemaRegistry) :
  (∀ schema opts now s0,
     Register name SchemaTypeJSON schema opts now r = (r', None) →
     Schema s0 = schema →
     Validate name data r' = validateJSON s0 data)
  ∧ (Delete name r = (r', None) →
       Validate name data r'
         = Return {| Valid := false;
                     Errors := [not_found name];
                     Message := "스키마 조회 실패" |}).
Proof.
  split.
  - intros schema opts now s0 Hreg Hs0.
    apply Register_succeeds in Hreg
      as (_ & _ & _ & _ & _ & s' & Hs' & _ & _ & Hty & Hschema & _).
    unfold Validate, Get. rewrite Hs', Hty, decide_True by done.
    apply validateJSON_same_definition. congruence.
  - intros (_ & Hs' & _)%Delete_succeeds.
    unfold Validate, Get. by rewrite Hs', lookup_delete_eq.
Qed.

Lemma Validate_uses_the_latest_definition_witness :
  Validate (go := Sample.lib) "OrderEvent" Sample.bad_order
    (Register (go := Sample.lib) "OrderEvent" SchemaTypeJSON
       Sample.empty_object None 30%Z
       (run (go := Sample.lib) Sample.orders NewSchemaRegistry)).1
  = validateJSON (go := Sample.lib) (Sample.json_schema Sample.empty_object)
      Sample.bad_order.
Proof.
  apply (proj1 (Validate_uses_the_latest_definition (go := Sample.lib)
                  "OrderEvent" Sample.bad_order
                  (run (go := Sample.lib) Sample.orders NewSchemaRegistry) _)
           Sample.empty_object None 30%Z).
  - vm_compute. reflexivity.
  - reflexivity.
Defined.
